(** * NowMesh: a flooding mesh over ESP-NOW

    A shallow embedding of [NowMesh.cpp] / [NowMesh.h].  The static
    [message_store] array, the ESP-NOW peer list and the per-object message
    counter are the fields of one state record; the radio and the user
    callbacks are observed through a list of events.  Array accesses go
    through bounds-checked reads and writes in a small error monad, because
    C++ gives no meaning to an access past the end of an array: of
    [message_store], and of the character arrays [data] and
    [received_buffer], which hold [MAX_MSG_LEN] characters including the
    terminator of the text written into them. *)

From Stdlib Require Import ZArith Ascii String Lia Bool.
From stdpp Require Import base tactics option list.

Local Open Scope Z_scope.
Local Open Scope nat_scope.

(** ** Constants of NowMesh.h *)

Definition STORED_MESSAGES : nat := 10.
Definition MAX_PEERS : nat := 10.
Definition MAX_MSG_LEN : nat := 65.

Arguments STORED_MESSAGES : simpl never.
Arguments MAX_PEERS : simpl never.
Arguments MAX_MSG_LEN : simpl never.

(** ** Fixed-width integers

    Conversions to the fixed-width types of the source, written out on [Z]. *)
Definition uint8_t (z : Z) : Z := (z mod 256)%Z.
Definition uint16_t (z : Z) : Z := (z mod 65536)%Z.
Definition int16_t (z : Z) : Z := ((z + 32768) mod 65536 - 32768)%Z.

(** ** Hardware addresses: [uint8_t mac[6]] *)

Record mac_addr := Mac { byte0 : Z; byte1 : Z; byte2 : Z; byte3 : Z; byte4 : Z; byte5 : Z }.

(** [memcmp(a, b, 6) == 0] *)
Definition memcmp6 (a b : mac_addr) : bool :=
  ((byte0 a =? byte0 b) && (byte1 a =? byte1 b) && (byte2 a =? byte2 b) &&
   (byte3 a =? byte3 b) && (byte4 a =? byte4 b) && (byte5 a =? byte5 b))%Z.

Definition zero_mac : mac_addr := Mac 0 0 0 0 0 0.

Definition valid_mac (a : mac_addr) : Prop :=
  (0 <= byte0 a < 256 /\ 0 <= byte1 a < 256 /\ 0 <= byte2 a < 256 /\
   0 <= byte3 a < 256 /\ 0 <= byte4 a < 256 /\ 0 <= byte5 a < 256)%Z.

(** ** The structs of NowMesh.h *)

Record message_info := MessageInfo {
  originator : mac_addr;
  sender : mac_addr;
  id : Z
}.

Record peer_info := PeerInfo {
  mac : mac_addr;
  score : Z
}.

(** Static storage is zero-initialised; [peer_info] has default member
    initialisers that give the same. *)
Definition zero_message : message_info := MessageInfo zero_mac zero_mac 0.
Definition zero_peer : peer_info := PeerInfo zero_mac 0.

(** ** Node state and observable events *)

Record NowMesh := Node {
  self : mac_addr;                      (* wifi_get_macaddr(0, self) *)
  message_store : list message_info;    (* message_info message_store[STORED_MESSAGES] *)
  peers : list mac_addr;                (* the ESP-NOW peer list *)
  last_message_id : Z                   (* uint16_t last_message_id *)
}.

Inductive event :=
| esp_now_send (target : option mac_addr) (data : list ascii)
| receiveCallback (message : list ascii) (self_is_target : bool) (from : mac_addr).

(** A node after [begin()]: the static store is zero-initialised, ESP-NOW
    has no peer yet and no message has been sent. *)
Definition begin (self_mac : mac_addr) : NowMesh :=
  Node self_mac (replicate STORED_MESSAGES zero_message) [] 0.

(** [esp_now_is_peer_exist] *)
Definition esp_now_is_peer_exist (ps : list mac_addr) (a : mac_addr) : bool :=
  existsb (memcmp6 a) ps.

(** ** Outcomes: a result, or an access outside an array

    [OutOfFuel] is the exhaustion of the iteration budget given to the two
    index-driven scans; it is shown below never to be produced. *)
Inductive outcome (A : Type) :=
| Done (a : A)
| OutOfBounds (i : nat)
| OutOfFuel.
Arguments Done {A} a.
Arguments OutOfBounds {A} i.
Arguments OutOfFuel {A}.

#[global] Instance outcome_ret : MRet outcome := fun A a => Done a.
#[global] Instance outcome_bind : MBind outcome := fun A B k m =>
  match m with
  | Done a => k a
  | OutOfBounds i => OutOfBounds i
  | OutOfFuel => OutOfFuel
  end.

(** [a[i]] as an r-value and [a[i] = x] *)
Definition rd {A} (a : list A) (i : nat) : outcome A :=
  match a !! i with
  | Some x => Done x
  | None => OutOfBounds i
  end.

Definition wr {A} (a : list A) (i : nat) (x : A) : outcome (list A) :=
  if decide (i < length a) then Done (<[i := x]> a) else OutOfBounds i.

(** ** C strings *)

Definition NUL : ascii := Ascii.zero.
Definition comma : ascii := ","%char.

(** The text of a C string: everything before the first NUL. *)
Fixpoint c_str (s : list ascii) : list ascii :=
  match s with
  | [] => []
  | c :: s' => if Ascii.eqb c NUL then [] else c :: c_str s'
  end.

(** ** Character arrays

    [char data[MAX_MSG_LEN]] and [char received_buffer[MAX_MSG_LEN]] are
    filled by [sprintf] and by [strcpy], which write a text and its
    terminator without regard to the size of the array.  A text of
    [MAX_MSG_LEN] characters or more is written past the end of the array,
    first at index [MAX_MSG_LEN]. *)
Definition char_array (text : list ascii) : outcome (list ascii) :=
  if decide (length text < MAX_MSG_LEN) then Done text else OutOfBounds MAX_MSG_LEN.

(** ** The C library on strings

    [strtok(buf, ",")] called until it returns NULL: the successive tokens
    are the maximal non-empty runs of characters other than the delimiter.
    [tok] accumulates the current run in reverse. *)
Fixpoint strtok_from (s tok : list ascii) : list (list ascii) :=
  match s with
  | [] => match tok with [] => [] | _ => [rev tok] end
  | c :: s' =>
      if Ascii.eqb c comma
      then match tok with [] => strtok_from s' [] | _ => rev tok :: strtok_from s' [] end
      else strtok_from s' (c :: tok)
  end.

Definition strtok (s : list ascii) : list (list ascii) := strtok_from s [].

(** [isspace] and [isdigit] in the C locale *)
Definition isspace (c : ascii) : bool :=
  let n := nat_of_ascii c in (n =? 32) || ((9 <=? n) && (n <=? 13)).

Definition digit_value (c : ascii) : option Z :=
  let n := nat_of_ascii c in
  if (48 <=? n) && (n <=? 57) then Some (Z.of_nat n - 48)%Z else None.

Fixpoint skip_spaces (s : list ascii) : list ascii :=
  match s with
  | c :: s' => if isspace c then skip_spaces s' else s
  | [] => []
  end.

Fixpoint digits_value (s : list ascii) (acc : Z) : Z :=
  match s with
  | c :: s' =>
      match digit_value c with
      | Some d => digits_value s' (acc * 10 + d)%Z
      | None => acc
      end
  | [] => acc
  end.

Definition LONG_MAX : Z := 2147483647.
Definition LONG_MIN : Z := (-2147483648).
Definition clamp_long (z : Z) : Z := Z.max LONG_MIN (Z.min LONG_MAX z).

(** [String::toInt] is [atol] on the buffer: leading white space, an
    optional sign, then the longest run of decimal digits; no digits give 0,
    and a value outside [long] (32 bits on the ESP8266) is clamped. *)
Definition toInt (s : list ascii) : Z :=
  match skip_spaces s with
  | c :: s' =>
      if Ascii.eqb c "-"%char then clamp_long (- digits_value s' 0)
      else if Ascii.eqb c "+"%char then clamp_long (digits_value s' 0)
      else clamp_long (digits_value (c :: s') 0)
  | [] => 0%Z
  end.

(** [%u] of a non-negative [int]: decimal digits, most significant first,
    no padding.  [digits_rev] yields them least significant first. *)
Definition digit_char (d : Z) : ascii := ascii_of_nat (48 + Z.to_nat d).

Fixpoint digits_rev (fuel : nat) (n : Z) : list Z :=
  match fuel with
  | O => []
  | S fuel' =>
      (n mod 10)%Z :: (if (n / 10 =? 0)%Z then [] else digits_rev fuel' (n / 10)%Z)
  end.

(** Ten digits are enough for any 32-bit value. *)
Definition utoa (n : Z) : list ascii := map digit_char (rev (digits_rev 10 n)).

Definition str (s : string) : list ascii := list_ascii_of_string s.

(** The output of a format string whose conversions are separated by single
    commas, given the text each conversion produces. *)
Fixpoint comma_separated (fields : list (list ascii)) : list ascii :=
  match fields with
  | [] => []
  | [t] => t
  | t :: rest => t ++ comma :: comma_separated rest
  end.

(** ** Sending *)

(** [sendMessage]: hands [strlen(data)] bytes to [esp_now_send]; a missing
    target (NULL) addresses every peer. *)
Definition sendMessage (target : option mac_addr) (data : list ascii) : event :=
  esp_now_send target (c_str data).

(** The text that the format string of [sendBroadcast] produces,
    ["1,%u,%u,%u,%u,%u,%u,0,0,0,0,0,0,%u,%s"]. *)
Definition broadcast_data (message : list ascii) (originator : mac_addr) (message_id : Z)
  : list ascii :=
  comma_separated
    [ str "1";
      utoa (byte0 originator); utoa (byte1 originator); utoa (byte2 originator);
      utoa (byte3 originator); utoa (byte4 originator); utoa (byte5 originator);
      str "0"; str "0"; str "0"; str "0"; str "0"; str "0";
      utoa message_id;
      c_str message ].

(** [char data[MAX_MSG_LEN]; sprintf(data, ...); return sendMessage(NULL, data);] *)
Definition sendBroadcast (message : list ascii) (originator : mac_addr) (message_id : Z)
  : outcome event :=
  data ← char_array (broadcast_data message originator message_id);
  Done (sendMessage None data).

(** The text that the format string of [sendTargeted] produces,
    ["2,%u,%u,%u,%u,%u,%u,%u,%u,%u,%u,%u,%u,%u,%s"]. *)
Definition targeted_data (message : list ascii) (originator target : mac_addr)
  (message_id : Z) : list ascii :=
  comma_separated
    [ str "2";
      utoa (byte0 originator); utoa (byte1 originator); utoa (byte2 originator);
      utoa (byte3 originator); utoa (byte4 originator); utoa (byte5 originator);
      utoa (byte0 target); utoa (byte1 target); utoa (byte2 target);
      utoa (byte3 target); utoa (byte4 target); utoa (byte5 target);
      utoa message_id;
      c_str message ].

(** The route scan of [sendTargeted]:
    [for (int i = 0; message_store[i].id > 0 && i < STORED_MESSAGES; i++)].
    The guard reads [message_store[i].id] before it compares [i] with the
    bound, so the read comes first here as well. *)
Fixpoint route_scan (fuel i : nat) (store : list message_info) (ps : list mac_addr)
  (target : mac_addr) (data : list ascii) : outcome event :=
  m ← rd store i;
  if (0 <? id m)%Z && (i <? STORED_MESSAGES) then
    if (memcmp6 (originator m) target || memcmp6 (sender m) target)
       && esp_now_is_peer_exist ps (sender m)
    then Done (sendMessage (Some (sender m)) data)
    else match fuel with
         | O => OutOfFuel
         | S fuel' => route_scan fuel' (S i) store ps target data
         end
  else Done (sendMessage None data).

(** [char data[MAX_MSG_LEN]; sprintf(data, ...);] and then the route scan. *)
Definition sendTargeted (st : NowMesh) (message : list ascii)
  (originator target : mac_addr) (message_id : Z) : outcome event :=
  data ← char_array (targeted_data message originator target message_id);
  route_scan STORED_MESSAGES 0 (message_store st) (peers st) target data.

(** ** Receiving *)

(** The locals of [receiveData] that the token loop fills in. *)
Record frame := Frame {
  message_type : Z;             (* uint8_t *)
  frame_originator : mac_addr;  (* uint8_t originator[6] *)
  target : mac_addr;            (* uint8_t target[6] *)
  message_id : Z;               (* uint16_t *)
  message : list ascii          (* String *)
}.

Definition set_byte (i : nat) (v : Z) (a : mac_addr) : mac_addr :=
  match i with
  | 0 => Mac v (byte1 a) (byte2 a) (byte3 a) (byte4 a) (byte5 a)
  | 1 => Mac (byte0 a) v (byte2 a) (byte3 a) (byte4 a) (byte5 a)
  | 2 => Mac (byte0 a) (byte1 a) v (byte3 a) (byte4 a) (byte5 a)
  | 3 => Mac (byte0 a) (byte1 a) (byte2 a) v (byte4 a) (byte5 a)
  | 4 => Mac (byte0 a) (byte1 a) (byte2 a) (byte3 a) v (byte5 a)
  | 5 => Mac (byte0 a) (byte1 a) (byte2 a) (byte3 a) (byte4 a) v
  | _ => a
  end.

Definition set_originator (i : nat) (token : list ascii) (f : frame) : frame :=
  Frame (message_type f) (set_byte i (uint8_t (toInt token)) (frame_originator f))
        (target f) (message_id f) (message f).

Definition set_target (i : nat) (token : list ascii) (f : frame) : frame :=
  Frame (message_type f) (frame_originator f)
        (set_byte i (uint8_t (toInt token)) (target f)) (message_id f) (message f).

(** [switch (pos)] *)
Definition store_token (pos : nat) (token : list ascii) (f : frame) : frame :=
  match pos with
  | 0 => Frame (uint8_t (toInt token)) (frame_originator f) (target f) (message_id f) (message f)
  | 1 => set_originator 0 token f
  | 2 => set_originator 1 token f
  | 3 => set_originator 2 token f
  | 4 => set_originator 3 token f
  | 5 => set_originator 4 token f
  | 6 => set_originator 5 token f
  | 7 => set_target 0 token f
  | 8 => set_target 1 token f
  | 9 => set_target 2 token f
  | 10 => set_target 3 token f
  | 11 => set_target 4 token f
  | 12 => set_target 5 token f
  | 13 => Frame (message_type f) (frame_originator f) (target f) (uint16_t (toInt token)) (message f)
  | 14 => Frame (message_type f) (frame_originator f) (target f) (message_id f) token
  | _ => f
  end.

(** [while (token != NULL) { switch (pos) ...; pos++; token = strtok(NULL, ","); }] *)
Fixpoint token_loop (tokens : list (list ascii)) (pos : nat) (f : frame) : nat * frame :=
  match tokens with
  | [] => (pos, f)
  | token :: rest => token_loop rest (S pos) (store_token pos token f)
  end.

(** The locals are left uninitialised by the source; they are read only
    after all fifteen have been assigned, so any starting value serves. *)
Definition unset : frame := Frame 0 zero_mac zero_mac 0 [].

(** [String(data).substring(0, len)]: the text up to the first NUL, cut
    to [len] characters. *)
Definition received_message (data : list ascii) (len : nat) : list ascii :=
  take len (c_str data).

(** Lines 208-287: the length check, the copy into [received_buffer], the
    token loop and the token count.  [Done None] is a frame that
    [receiveData] tosses out. *)
Definition decode (data : list ascii) (len : nat) : outcome (option frame) :=
  if decide (MAX_MSG_LEN < len) then Done None
  else
    received_buffer ← char_array (received_message data len);
    let '(pos, f) := token_loop (strtok received_buffer) 0 unset in
    Done (if decide (pos = 15) then Some f else None).

(** The duplicate scan:
    [while (msg_i < STORED_MESSAGES && message_store[msg_i].id > 0)].
    [Done None] is the early return on a stored message, [Done (Some msg_i)]
    the index at which the scan stopped. *)
Fixpoint seen_scan (fuel msg_i : nat) (store : list message_info)
  (originator_ : mac_addr) (message_id : Z) : outcome (option nat) :=
  if msg_i <? STORED_MESSAGES then
    m ← rd store msg_i;
    if (0 <? id m)%Z then
      if (id m =? message_id)%Z && memcmp6 (originator m) originator_ then Done None
      else match fuel with
           | O => OutOfFuel
           | S fuel' => seen_scan fuel' (S msg_i) store originator_ message_id
           end
    else Done (Some msg_i)
  else Done (Some msg_i).

(** [for (; msg_i > 0; msg_i--) message_store[msg_i] = message_store[msg_i - 1]] *)
Fixpoint shift_back (store : list message_info) (msg_i : nat) : outcome (list message_info) :=
  match msg_i with
  | O => Done store
  | S j =>
      m ← rd store j;
      store' ← wr store (S j) m;
      shift_back store' j
  end.

Definition with_store (st : NowMesh) (store : list message_info) : NowMesh :=
  Node (self st) store (peers st) (last_message_id st).

(** Lines 322-337: deliver to the user, resend as necessary. *)
Definition dispatch (st : NowMesh) (f : frame) : outcome (list event) :=
  if memcmp6 (target f) (self st) then
    Done [receiveCallback (message f) false (frame_originator f)]
  else
    resent ← (if (message_type f =? 1)%Z then
                e ← sendBroadcast (message f) (frame_originator f) (message_id f);
                Done [e]
              else if (message_type f =? 2)%Z then
                e ← sendTargeted st (message f) (frame_originator f)
                      (target f) (message_id f);
                Done [e]
              else Done []);
    Done (resent ++ [receiveCallback (message f) true (frame_originator f)]).

Definition receiveData (st : NowMesh) (mac : mac_addr) (data : list ascii) (len : nat)
  : outcome (NowMesh * list event) :=
  decoded ← decode data len;
  match decoded with
  | None => Done (st, [])
  | Some f =>
      if memcmp6 (frame_originator f) (self st) then Done (st, [])
      else
        found ← seen_scan STORED_MESSAGES 0 (message_store st)
                  (frame_originator f) (message_id f);
        match found with
        | None => Done (st, [])
        | Some msg_i =>
            let msg_i := if decide (msg_i = STORED_MESSAGES) then msg_i - 1 else msg_i in
            shifted ← shift_back (message_store st) msg_i;
            store' ← wr shifted 0 (MessageInfo (frame_originator f) mac (message_id f));
            let st' := with_store st store' in
            events ← dispatch st' f;
            Done (st', events)
        end
  end.

(** ** The user-facing send functions

    [send(message)] and its overload [send(message, target)]. *)
Definition next_id (st : NowMesh) : NowMesh :=
  Node (self st) (message_store st) (peers st) (uint16_t (last_message_id st + 1)).

Definition send (st : NowMesh) (message : list ascii) : outcome (NowMesh * list event) :=
  let st' := next_id st in
  e ← sendBroadcast message (self st') (last_message_id st');
  Done (st', [e]).

Definition send_to (st : NowMesh) (message : list ascii) (target : mac_addr)
  : outcome (NowMesh * list event) :=
  let st' := next_id st in
  e ← sendTargeted st' message (self st') target (last_message_id st');
  Done (st', [e]).

(** ** Peer discovery *)

(** The fields of the SDK's [struct bss_info] that the callback reads, and
    the SDK's scan status. *)
Record bss_info := BssInfo {
  ssid : string;
  bssid : mac_addr;
  rssi : Z              (* sint8 *)
}.

Inductive STATUS := OK | FAIL | PENDING | BUSY | CANCEL.

(** [ssid.substring(0, 4) == "ESP_"] *)
Definition has_esp_prefix (ap : bss_info) : bool :=
  String.eqb (String.substring 0 4 (ssid ap)) "ESP_".

(** Lines 69-76: signal strength, plus 20 for every stored message that came
    from or through this access point. *)
Definition ap_score (store : list message_info) (ap : bss_info) : Z :=
  fold_left
    (fun sc m =>
       if memcmp6 (bssid ap) (originator m) || memcmp6 (bssid ap) (sender m)
       then int16_t (sc + 20) else sc)
    (take STORED_MESSAGES store)
    (int16_t (128 - Z.abs (rssi ap))).

(** Lines 79-93: the loop over [peer_store] that picks [candidate]; [slots]
    are the entries from index [i] on. *)
Fixpoint pick_candidate (slots : list peer_info) (i : nat) (sc candidate worst_score : Z) : Z :=
  match slots with
  | [] => candidate
  | p :: rest =>
      if negb (0 <? score p)%Z then Z.of_nat i
      else if ((score p <? sc) && (score p <? worst_score))%Z
           then pick_candidate rest (S i) sc (Z.of_nat i) (score p)
           else pick_candidate rest (S i) sc candidate worst_score
  end.

(** The body of the [while (ap_link != NULL)] loop. *)
Definition consider (store : list message_info) (peer_store : list peer_info)
  (ap : bss_info) : list peer_info :=
  if has_esp_prefix ap then
    let sc := ap_score store ap in
    let candidate := pick_candidate (take MAX_PEERS peer_store) 0 sc (-1) 0 in
    if (0 <=? candidate)%Z
    then <[Z.to_nat candidate := PeerInfo (bssid ap) sc]> peer_store
    else peer_store
  else peer_store.

Definition scan_results (store : list message_info) (arg : list bss_info) : list peer_info :=
  fold_left (consider store) arg (replicate MAX_PEERS zero_peer).

(** Lines 105-111 *)
Definition add_peers (peer_store : list peer_info) (ps : list mac_addr) : list mac_addr :=
  fold_left
    (fun ps p =>
       if (0 <? score p)%Z
       then if esp_now_is_peer_exist ps (mac p) then ps else ps ++ [mac p]
       else ps)
    peer_store ps.

(** Lines 113-127 *)
Definition purge_peers (peer_store : list peer_info) (ps : list mac_addr) : list mac_addr :=
  List.filter (fun peer => existsb (fun p => memcmp6 peer (mac p)) peer_store) ps.

Definition scanDoneCallback (st : NowMesh) (arg : list bss_info) (status : STATUS) : NowMesh :=
  match status with
  | OK =>
      let peer_store := scan_results (message_store st) arg in
      Node (self st) (message_store st)
           (purge_peers peer_store (add_peers peer_store (peers st)))
           (last_message_id st)
  | _ => st
  end.

(** ** Derived notions used in the statements *)

(** The entries a scan of the store visits: those in front of the first
    slot whose id is 0. *)
Fixpoint scanned (store : list message_info) : list message_info :=
  match store with
  | m :: rest => if (0 <? id m)%Z then m :: scanned rest else []
  | [] => []
  end.

(** The test of the duplicate scan, line 298. *)
Definition same_message (o : mac_addr) (mid : Z) (m : message_info) : bool :=
  (id m =? mid)%Z && memcmp6 (originator m) o.

(** The test of the route scan, lines 191 and 194. *)
Definition usable_route (ps : list mac_addr) (t : mac_addr) (m : message_info) : bool :=
  (memcmp6 (originator m) t || memcmp6 (sender m) t) && esp_now_is_peer_exist ps (sender m).

(** What lines 305-320 leave in the store when the scan stopped at [msg_i]. *)
Definition insert_front (store : list message_info) (new : message_info) : list message_info :=
  let n := length (scanned store) in
  let msg_i := if decide (n = STORED_MESSAGES) then n - 1 else n in
  new :: take msg_i store ++ drop (S msg_i) store.

Definition well_sized (st : NowMesh) : Prop :=
  length (message_store st) = STORED_MESSAGES.

(** A stored message with the given originator and id that the duplicate
    scan can see. *)
Definition held (store : list message_info) (o : mac_addr) (mid : Z) : Prop :=
  ∃ m, m ∈ scanned store ∧ originator m = o ∧ id m = mid.

Definition callbacks (events : list event) : list event :=
  List.filter (fun e => match e with receiveCallback _ _ _ => true | _ => false end) events.

(** Receipts processed one after the other, events concatenated. *)
Fixpoint receive_all (st : NowMesh) (rs : list (mac_addr * list ascii))
  : outcome (NowMesh * list event) :=
  match rs with
  | [] => Done (st, [])
  | (from, data) :: rest =>
      '(st1, ev1) ← receiveData st from data (length data);
      '(st2, ev2) ← receive_all st1 rest;
      Done (st2, ev1 ++ ev2)
  end.

(** States a node can be in: started by [begin], then driven through its
    entry points.  [ok] restricts the frames that arrive. *)
Inductive reachable_by (ok : frame → Prop) (me : mac_addr) : NowMesh → Prop :=
| reach_begin : reachable_by ok me (begin me)
| reach_receive st from data len st' events :
    reachable_by ok me st →
    (∀ f, decode data len = Done (Some f) → ok f) →
    receiveData st from data len = Done (st', events) →
    reachable_by ok me st'
| reach_send st message st' events :
    reachable_by ok me st →
    send st message = Done (st', events) →
    reachable_by ok me st'
| reach_send_to st message target st' events :
    reachable_by ok me st →
    send_to st message target = Done (st', events) →
    reachable_by ok me st'
| reach_scan st arg status :
    reachable_by ok me st → reachable_by ok me (scanDoneCallback st arg status).

Definition reachable : mac_addr → NowMesh → Prop := reachable_by (fun _ => True).

(** The frame that fifteen tokens stand for, as the token loop assigns
    them. *)
Definition frame_of_tokens (tokens : list (list ascii)) : option frame :=
  match tokens with
  | [t0; t1; t2; t3; t4; t5; t6; t7; t8; t9; t10; t11; t12; t13; t14] =>
      Some (Frame (uint8_t (toInt t0))
              (Mac (uint8_t (toInt t1)) (uint8_t (toInt t2)) (uint8_t (toInt t3))
                   (uint8_t (toInt t4)) (uint8_t (toInt t5)) (uint8_t (toInt t6)))
              (Mac (uint8_t (toInt t7)) (uint8_t (toInt t8)) (uint8_t (toInt t9))
                   (uint8_t (toInt t10)) (uint8_t (toInt t11)) (uint8_t (toInt t12)))
              (uint16_t (toInt t13))
              t14)
  | _ => None
  end.

(** The identity of a stored message. *)
Definition key (m : message_info) : mac_addr * Z := (originator m, id m).

Definition nonzero_id (f : frame) : Prop := message_id f ≠ 0%Z.

(** Receipts, each delivered whole, whose frames all have a non-zero id. *)
Definition nonzero_ids (rs : list (mac_addr * list ascii)) : Prop :=
  Forall (fun r => ∀ f, decode r.2 (length r.2) = Done (Some f) → nonzero_id f) rs.

(** Every slot behind the scanned entries is empty. *)
Definition tidy (store : list message_info) : Prop :=
  Forall (fun m => id m = 0%Z) (drop (length (scanned store)) store).

(** A frame that passes the three gates of [receiveData]: it decodes, it
    was not originated here, and its pair is not held. *)
Definition accepted (st : NowMesh) (data : list ascii) (len : nat) (f : frame) : Prop :=
  decode data len = Done (Some f)
  ∧ frame_originator f ≠ self st
  ∧ ¬ held (message_store st) (frame_originator f) (message_id f).

(** What the send path puts on the air for a frame: the line of
    [sendBroadcast] for type 1, that of [sendTargeted] otherwise. *)
Definition encode (f : frame) : list ascii :=
  if (message_type f =? 1)%Z
  then broadcast_data (message f) (frame_originator f) (message_id f)
  else targeted_data (message f) (frame_originator f) (target f) (message_id f).

(** The field bounds of the wire format; the total length is less than
    [MAX_MSG_LEN], as the format comment of the source asks. *)
Definition valid_frame (f : frame) : Prop :=
  ((message_type f = 1 ∧ target f = zero_mac) ∨ message_type f = 2)%Z
  ∧ valid_mac (frame_originator f)
  ∧ valid_mac (target f)
  ∧ (0 ≤ message_id f < 65536)%Z
  ∧ (comma ∉ message f)
  ∧ length (encode f) < MAX_MSG_LEN.

Definition is_digit (d : Z) : Prop := (0 ≤ d < 10)%Z.

(** The number that digits, least significant first, stand for. *)
Definition value_rev (ds : list Z) : Z := fold_right (fun d acc => d + 10 * acc)%Z 0%Z ds.

(** A token written by a conversion can be cut out again. *)
Definition plain (t : list ascii) : Prop := t ≠ [] ∧ (comma ∉ t) ∧ (NUL ∉ t).

(** Where a non-empty slot of the working set comes from. *)
Definition from_esp (store : list message_info) (arg : list bss_info) (p : peer_info) : Prop :=
  p = zero_peer
  ∨ ∃ ap, ap ∈ arg ∧ has_esp_prefix ap = true
          ∧ mac p = bssid ap ∧ score p = ap_score store ap.

(** ** Sample nodes, frames and scans for the examples *)

Definition addr_A : mac_addr := Mac 10 0 0 0 0 1.
Definition addr_B : mac_addr := Mac 10 0 0 0 0 2.
Definition addr_C : mac_addr := Mac 10 0 0 0 0 3.
Definition addr_D : mac_addr := Mac 10 0 0 0 0 4.
Definition addr_self : mac_addr := Mac 10 0 0 0 0 9.

(** ["1,10,0,0,0,0,1,0,0,0,0,0,0,<n>,hi!"]: a broadcast of [addr_A]. *)
Definition hi (n : Z) : list ascii := broadcast_data (str "hi!") addr_A n.

Definition hi_frame (n : Z) : frame := Frame 1 addr_A zero_mac n (str "hi!").

(** Such broadcasts, each relayed by [addr_B]. *)
Definition relayed (ids : list Z) : list (mac_addr * list ascii) :=
  map (fun n => (addr_B, hi n)) ids.

(** Ten broadcasts fill the store. *)
Definition ten_heard : list (mac_addr * list ascii) :=
  relayed [1; 2; 3; 4; 5; 6; 7; 8; 9; 10]%Z.

(** A broadcast that lost its payload field. *)
Definition fourteen_tokens : list ascii := str "1,10,0,0,0,0,1,0,0,0,0,0,0,1".

(** The same fourteen fields, the last one drawn out so that the text has
    exactly [MAX_MSG_LEN] characters. *)
Definition full_length : list ascii := fourteen_tokens ++ replicate 37 "1"%char.

Definition targeted_at_C : list ascii := targeted_data (str "hi!") addr_A addr_C 1.

Definition sample_targeted : frame := Frame 2 addr_A addr_C 65535 (str "hi!").
Definition empty_payload : frame := Frame 1 addr_A zero_mac 7 [].
Definition nul_payload : frame := Frame 1 addr_A zero_mac 7 ["a"%char; NUL; "b"%char].

Definition esp_ap (a : mac_addr) (signal : Z) : bss_info := BssInfo "ESP_0A0B0C" a signal.

Definition weak_aps : list bss_info :=
  map (fun n => esp_ap (Mac 10 0 0 0 1 n) (-90)) [1; 2; 3; 4; 5; 6; 7; 8; 9; 10]%Z.

(** A node that heard [addr_A]'s first broadcast through its peer [addr_C]
    and the second one through [addr_B], which is not a peer. *)
Definition two_routes : NowMesh :=
  Node addr_self
    ([MessageInfo addr_A addr_B 2; MessageInfo addr_A addr_C 1]
       ++ replicate 8 zero_message)
    [addr_C] 0.

(** ** Notions used in the further properties *)

(** Broadcasts sent one after the other, events concatenated. *)
Fixpoint send_all (st : NowMesh) (messages : list (list ascii))
  : outcome (NowMesh * list event) :=
  match messages with
  | [] => Done (st, [])
  | message :: rest =>
      '(st1, ev1) ← send st message;
      '(st2, ev2) ← send_all st1 rest;
      Done (st2, ev1 ++ ev2)
  end.

(** The test of line 73: a stored message came from or through [a]. *)
Definition heard_through (a : mac_addr) (m : message_info) : bool :=
  memcmp6 a (originator m) || memcmp6 a (sender m).

(** What line 97-98 write for an access point. *)
Definition to_peer (store : list message_info) (ap : bss_info) : peer_info :=
  PeerInfo (bssid ap) (ap_score store ap).

(** Access points that end up in a slot in use. *)
Definition worth_a_slot (store : list message_info) (ap : bss_info) : bool :=
  has_esp_prefix ap && (0 <? ap_score store ap)%Z.

(** What holds of every slot of the message store of a running node. *)
Definition slot_ok (me : mac_addr) (m : message_info) : Prop :=
  valid_mac (originator m)
  ∧ (0 ≤ id m < 65536)%Z
  ∧ (m = zero_message ∨ originator m ≠ me).

(** A line whose type field is neither 1 nor 2. *)
Definition odd_type : list ascii := str "7,10,0,0,0,0,1,10,0,0,0,0,3,1,hi!".

(** A broadcast of 60 characters whose numeric fields are written as [-1];
    the parser reads them as 255 and 65535. *)
Definition minus_ones : list ascii :=
  str "1,-1,-1,-1,-1,-1,-1,0,0,0,0,0,0,-1,abcdefghijklmnopqrstuvwxy".

(** A node without peers whose store is full of broadcasts of [addr_A]. *)
Definition full_store : NowMesh :=
  Node addr_self
    (map (fun n => MessageInfo addr_A addr_B n) [10; 9; 8; 7; 6; 5; 4; 3; 2; 1]%Z)
    [] 0.

(** A node whose latest stored message is [addr_A]'s, heard through its peer
    [addr_C]. *)
Definition heard_through_C : NowMesh :=
  Node addr_self
    (MessageInfo addr_A addr_C 2 :: replicate 9 zero_message)
    [addr_C] 0.

(** * Facts about the model *)

(** ** Basic facts *)

(** Two steps that recur in the examples: a character is not in a literal
    string, and a literal address is made of bytes. *)
Ltac literal_not_elem :=
  let H := fresh in
  intros H; repeat (apply elem_of_cons in H as [H|H]; [discriminate H|]);
  by apply elem_of_nil in H.

Ltac literal_mac := unfold valid_mac; simpl; lia.

Lemma memcmp6_eq a b : memcmp6 a b = true ↔ a = b.
Proof.
  destruct a, b; unfold memcmp6; simpl.
  rewrite !andb_true_iff, !Z.eqb_eq. split.
  - intros [[[[[-> ->] ->] ->] ->] ->]; reflexivity.
  - intros [= -> -> -> -> -> ->]; repeat split.
Qed.

Lemma memcmp6_refl a : memcmp6 a a = true.
Proof. by apply memcmp6_eq. Qed.

Lemma memcmp6_ne a b : memcmp6 a b = false ↔ a ≠ b.
Proof.
  rewrite <- not_true_iff_false, memcmp6_eq. tauto.
Qed.

Lemma is_peer_elem ps a : esp_now_is_peer_exist ps a = true ↔ a ∈ ps.
Proof.
  unfold esp_now_is_peer_exist. rewrite existsb_exists. split.
  - intros (x & Hin & Heq). apply memcmp6_eq in Heq as ->. by apply list_elem_of_In.
  - intros Hin. exists a. split; [by apply list_elem_of_In | apply memcmp6_refl].
Qed.

Lemma rd_lookup {A} (a : list A) i x : a !! i = Some x → rd a i = Done x.
Proof. unfold rd. by intros ->. Qed.

Lemma rd_past_end {A} (a : list A) i : length a ≤ i → rd a i = OutOfBounds i.
Proof. intros H. unfold rd. by rewrite (lookup_ge_None_2 _ _ H). Qed.

Lemma wr_inside {A} (a : list A) i x : i < length a → wr a i x = Done (<[i := x]> a).
Proof. intros H. unfold wr. by rewrite decide_True. Qed.

Lemma char_array_fits text : length text < MAX_MSG_LEN → char_array text = Done text.
Proof. intros H. unfold char_array. by rewrite decide_True. Qed.

Lemma char_array_overrun text :
  MAX_MSG_LEN ≤ length text → char_array text = OutOfBounds MAX_MSG_LEN.
Proof. intros H. unfold char_array. by rewrite decide_False by lia. Qed.

Lemma char_array_Done text buffer :
  char_array text = Done buffer → buffer = text ∧ length text < MAX_MSG_LEN.
Proof. unfold char_array. case_decide; [|done]. by intros [= <-]. Qed.

(** The library functions on sample inputs: [strtok] skips empty fields,
    [toInt] reads like [atol], and the format strings give the documented
    line. *)
Lemma strtok_skips_empty_fields :
  strtok (str ",1,,2,") = [str "1"; str "2"].
Proof. reflexivity. Qed.

Lemma toInt_samples :
  toInt (str "42") = 42%Z ∧ toInt (str " -7x") = (-7)%Z ∧ toInt (str "abc") = 0%Z
  ∧ toInt (str "99999999999") = LONG_MAX.
Proof. repeat split; vm_compute; reflexivity. Qed.

Lemma data_samples :
  broadcast_data (str "hi!") addr_A 1 = str "1,10,0,0,0,0,1,0,0,0,0,0,0,1,hi!"
  ∧ targeted_data (str "hi!") addr_A addr_C 1 = str "2,10,0,0,0,0,1,10,0,0,0,0,3,1,hi!".
Proof. split; reflexivity. Qed.

(** ** The shift of lines 312-316 in closed form *)

Lemma shift_back_closed store msg_i :
  msg_i < length store →
  shift_back store msg_i = Done (take 1 store ++ take msg_i store ++ drop (S msg_i) store).
Proof.
  revert store. induction msg_i as [|j IH]; intros store Hlt.
  - destruct store; [simpl in Hlt; lia | done].
  - destruct (lookup_lt_is_Some_2 store j) as [m Hm]; [lia|].
    cbn [shift_back]. rewrite (rd_lookup _ _ _ Hm). cbn.
    rewrite wr_inside by done. cbn.
    rewrite IH by (rewrite length_insert; lia).
    f_equal.
    rewrite !take_insert_ge by lia.
    rewrite drop_insert_ge by lia.
    replace (S j - S j) with 0 by lia.
    rewrite (take_S_r _ _ _ Hm).
    destruct (lookup_lt_is_Some_2 store (S j)) as [m' Hm']; [lia|].
    rewrite (drop_S _ _ _ Hm'). simpl.
    by rewrite <- !app_assoc.
Qed.

Lemma scanned_length store : length (scanned store) ≤ length store.
Proof.
  induction store as [|m store IH]; simpl; [lia|].
  destruct (0 <? id m)%Z; simpl; lia.
Qed.

Lemma scanned_positive store m : m ∈ scanned store → (0 < id m)%Z.
Proof.
  induction store as [|x store IH]; simpl; [by intros ?%elem_of_nil|].
  destruct (0 <? id x)%Z eqn:E; [|by intros ?%elem_of_nil].
  intros [->|?]%elem_of_cons; [by apply Z.ltb_lt | auto].
Qed.

Lemma scanned_all store :
  Forall (fun m => (0 < id m)%Z) store → scanned store = store.
Proof.
  induction 1 as [|m store Hm _ IH]; simpl; [done|].
  apply Z.ltb_lt in Hm. by rewrite Hm, IH.
Qed.

(** ** The two scans in closed form *)

Lemma seen_scan_closed fuel i store o mid :
  length store = STORED_MESSAGES →
  STORED_MESSAGES ≤ i + fuel →
  seen_scan fuel i store o mid =
    Done (if existsb (same_message o mid) (scanned (drop i store)) then None
          else Some (i + length (scanned (drop i store)))).
Proof.
  intros Hlen. revert i. induction fuel as [|fuel IH]; intros i Hfuel.
  - cbn [seen_scan]. rewrite (proj2 (Nat.ltb_ge _ _)) by lia.
    rewrite drop_ge by lia. simpl. do 2 f_equal. lia.
  - cbn [seen_scan]. destruct (i <? STORED_MESSAGES) eqn:Hi.
    + apply Nat.ltb_lt in Hi.
      destruct (lookup_lt_is_Some_2 store i) as [m Hm]; [lia|].
      rewrite (rd_lookup _ _ _ Hm), (drop_S _ _ _ Hm). cbn.
      destruct (0 <? id m)%Z; cbn; [|do 2 f_equal; lia].
      fold (same_message o mid m). destruct (same_message o mid m); cbn; [done|].
      rewrite IH by lia.
      destruct (existsb _ _); [done|]. do 2 f_equal. lia.
    + apply Nat.ltb_ge in Hi. rewrite drop_ge by lia. simpl. do 2 f_equal. lia.
Qed.

Lemma route_scan_closed fuel i store ps t data :
  length store = STORED_MESSAGES →
  STORED_MESSAGES ≤ i + fuel →
  i ≤ STORED_MESSAGES →
  route_scan fuel i store ps t data =
    match List.find (usable_route ps t) (scanned (drop i store)) with
    | Some m => Done (sendMessage (Some (sender m)) data)
    | None =>
        if decide (i + length (scanned (drop i store)) < STORED_MESSAGES)
        then Done (sendMessage None data)
        else OutOfBounds STORED_MESSAGES
    end.
Proof.
  intros Hlen. revert i.
  assert (Hend : ∀ fuel, route_scan fuel STORED_MESSAGES store ps t data =
                          OutOfBounds STORED_MESSAGES).
  { intros []; cbn [route_scan]; by rewrite rd_past_end by lia. }
  induction fuel as [|fuel IH]; intros i Hfuel Hi.
  - replace i with STORED_MESSAGES by lia. rewrite Hend.
    rewrite drop_ge by lia. cbn [scanned List.find length]. by rewrite decide_False by lia.
  - destruct (decide (i = STORED_MESSAGES)) as [->|Hne].
    { rewrite Hend, drop_ge by lia. cbn [scanned List.find length].
      by rewrite decide_False by lia. }
    cbn [route_scan].
    destruct (lookup_lt_is_Some_2 store i) as [m Hm]; [lia|].
    rewrite (rd_lookup _ _ _ Hm), (drop_S _ _ _ Hm).
    cbn [mbind outcome_bind scanned].
    rewrite (proj2 (Nat.ltb_lt _ _)) by lia.
    destruct (0 <? id m)%Z; cbn [andb List.find length].
    + fold (usable_route ps t m). destruct (usable_route ps t m); [done|].
      rewrite IH by lia.
      destruct (List.find _ _); [done|].
      destruct (decide (S i + _ < _)), (decide (i + S _ < _)); done || lia.
    + by rewrite decide_True by lia.
Qed.

(** ** What one receipt does to a well-sized node *)

Lemma receiveData_closed st from data len :
  well_sized st →
  receiveData st from data len =
    (decoded ← decode data len;
     match decoded with
     | None => Done (st, [])
     | Some f =>
         if memcmp6 (frame_originator f) (self st) then Done (st, [])
         else if existsb (same_message (frame_originator f) (message_id f))
                   (scanned (message_store st))
         then Done (st, [])
         else
           let st' := with_store st
                        (insert_front (message_store st)
                           (MessageInfo (frame_originator f) from (message_id f))) in
           events ← dispatch st' f; Done (st', events)
     end).
Proof.
  intros Hlen. unfold receiveData.
  destruct (decode data len) as [[f|]| |]; [|done..]. cbn [mbind outcome_bind].
  destruct (memcmp6 _ _); [done|].
  rewrite seen_scan_closed by (done || lia). rewrite drop_0. cbn.
  destruct (existsb _ _); [done|]. cbn.
  pose proof (scanned_length (message_store st)) as Hle.
  unfold well_sized in Hlen.
  rewrite shift_back_closed by (case_decide; unfold STORED_MESSAGES in *; lia).
  cbn. destruct (message_store st) as [|m0 store] eqn:Hs; [simpl in Hlen; done|].
  rewrite wr_inside by (rewrite length_app; simpl; lia).
  done.
Qed.

(** ** Decoding, token by token *)

Lemma token_loop_pos tokens pos f : (token_loop tokens pos f).1 = pos + length tokens.
Proof.
  revert pos f. induction tokens as [|t ts IH]; intros pos f; simpl; [lia|].
  rewrite IH. lia.
Qed.

Lemma decode_tokens data len :
  decode data len =
    if decide (MAX_MSG_LEN < len) then Done None
    else if decide (length (received_message data len) < MAX_MSG_LEN)
         then Done (frame_of_tokens (strtok (received_message data len)))
         else OutOfBounds MAX_MSG_LEN.
Proof.
  unfold decode, char_array. case_decide; [done|]. case_decide; [|done].
  cbn [mbind outcome_bind].
  generalize (strtok (received_message data len)). intros ts.
  pose proof (token_loop_pos ts 0 unset) as Hpos.
  destruct (token_loop ts 0 unset) as [pos f] eqn:Hloop. simpl in Hpos.
  do 15 (destruct ts as [|? ts];
         [simpl in Hpos; rewrite decide_False by lia; done|]).
  destruct ts as [|? ts].
  - simpl in Hloop. injection Hloop as <- <-. done.
  - simpl in Hpos. rewrite decide_False by lia. done.
Qed.

(** A decoded frame comes from fifteen tokens of a text that fits the
    receive buffer. *)
Lemma decode_Some data len f :
  decode data len = Done (Some f) →
  len ≤ MAX_MSG_LEN
  ∧ length (received_message data len) < MAX_MSG_LEN
  ∧ frame_of_tokens (strtok (received_message data len)) = Some f.
Proof.
  rewrite decode_tokens. case_decide; [done|]. case_decide; [|done].
  intros [= Hf]. split; [lia|]. by split.
Qed.

Lemma decode_count data len f :
  decode data len = Done (Some f) →
  len ≤ MAX_MSG_LEN ∧ length (strtok (received_message data len)) = 15.
Proof.
  intros (Hlen & _ & Hf)%decode_Some. split; [done|].
  destruct (strtok _) as [|? ts]; [done|].
  do 14 (destruct ts as [|? ts]; [done|]).
  by destruct ts.
Qed.

Lemma decode_id_range data len f :
  decode data len = Done (Some f) → (0 ≤ message_id f < 65536)%Z.
Proof.
  intros (_ & _ & Hf)%decode_Some. revert Hf.
  destruct (strtok _) as [|? ts]; [done|].
  do 14 (destruct ts as [|? ts]; [done|]).
  destruct ts; [|done]. intros [= <-]. simpl. unfold uint16_t.
  apply Z.mod_pos_bound. lia.
Qed.

(** ** The duplicate test and the entries it sees *)

Lemma held_iff store o mid :
  held store o mid ↔ existsb (same_message o mid) (scanned store) = true.
Proof.
  unfold held. rewrite existsb_exists. split.
  - intros (m & Hin & <- & <-). exists m. split; [by apply list_elem_of_In|].
    unfold same_message. by rewrite Z.eqb_refl, memcmp6_refl.
  - intros (m & Hin & Hm). exists m. unfold same_message in Hm.
    apply andb_true_iff in Hm as [?%Z.eqb_eq ?%memcmp6_eq].
    split; [by apply list_elem_of_In | done].
Qed.

Lemma not_held_iff store o mid :
  ¬ held store o mid ↔ existsb (same_message o mid) (scanned store) = false.
Proof. rewrite held_iff. by destruct (existsb _ _). Qed.

Lemma scanned_prefix store : take (length (scanned store)) store = scanned store.
Proof.
  induction store as [|m store IH]; simpl; [done|].
  destruct (0 <? id m)%Z; simpl; [by rewrite IH | done].
Qed.

Lemma scanned_Forall store : Forall (fun m => (0 < id m)%Z) (scanned store).
Proof. apply Forall_forall. intros m. apply scanned_positive. Qed.

Lemma scanned_app l1 l2 :
  Forall (fun m => (0 < id m)%Z) l1 → scanned (l1 ++ l2) = l1 ++ scanned l2.
Proof.
  induction 1 as [|m l1 Hm _ IH]; simpl; [done|].
  apply Z.ltb_lt in Hm. by rewrite Hm, IH.
Qed.

Lemma scanned_empty l : Forall (fun m => id m = 0%Z) l → scanned l = [].
Proof. destruct 1 as [|m l Hm _]; simpl; [done|]. by rewrite Hm. Qed.

Lemma length_insert_front store new :
  length store = STORED_MESSAGES → length (insert_front store new) = STORED_MESSAGES.
Proof.
  intros Hlen. unfold insert_front. pose proof (scanned_length store).
  cbn [length]. rewrite length_app, length_take, length_drop.
  case_decide; unfold STORED_MESSAGES in *; lia.
Qed.

(** Into a store without an empty slot the new entry goes in front and the
    last entry falls out. *)
Lemma insert_front_full store new :
  length store = STORED_MESSAGES →
  Forall (fun m => (0 < id m)%Z) store →
  insert_front store new = new :: take (STORED_MESSAGES - 1) store.
Proof.
  intros Hlen Hall. unfold insert_front. rewrite (scanned_all _ Hall), Hlen.
  rewrite decide_True by done.
  rewrite drop_ge by (unfold STORED_MESSAGES in *; lia).
  by rewrite app_nil_r.
Qed.

Lemma scanned_insert_front store new :
  length store = STORED_MESSAGES → tidy store → (0 < id new)%Z →
  scanned (insert_front store new) = new :: take (STORED_MESSAGES - 1) (scanned store)
  ∧ tidy (insert_front store new).
Proof.
  intros Hlen Htidy Hnew. unfold tidy in *.
  pose proof (scanned_length store) as Hle.
  pose proof (scanned_prefix store) as Hpre.
  pose proof (scanned_Forall store) as Hpos.
  unfold insert_front. cbn [scanned]. rewrite (proj2 (Z.ltb_lt _ _) Hnew).
  set (k := length (scanned store)) in *.
  case_decide as Hk.
  - assert (Hall : scanned store = store).
    { rewrite <- Hpre. apply take_ge. lia. }
    rewrite Hall in Hpos. clearbody k. subst k.
    rewrite (drop_ge store) by (unfold STORED_MESSAGES in *; lia).
    rewrite app_nil_r.
    rewrite (scanned_all (take (STORED_MESSAGES - 1) store)) by by apply Forall_take.
    split; [by rewrite Hall|].
    cbn [length drop]. rewrite drop_ge; [constructor|].
    rewrite length_take. unfold STORED_MESSAGES in *. lia.
  - assert (Hrest : Forall (fun m => id m = 0%Z) (drop (S k) store)).
    { replace (S k) with (k + 1) by lia. rewrite <- drop_drop. by apply Forall_drop. }
    rewrite Hpre. rewrite (scanned_app _ _ Hpos), (scanned_empty _ Hrest), app_nil_r.
    rewrite (take_ge (scanned store)) by (fold k; unfold STORED_MESSAGES in *; lia).
    split; [done|].
    cbn [length drop]. subst k. by rewrite drop_app_length.
Qed.

(** ** Inversion of a completed receipt *)

Lemma receiveData_Done st from data len st' events :
  well_sized st →
  receiveData st from data len = Done (st', events) →
  (st' = st ∧ events = [] ∧
   (decode data len = Done None ∨
    ∃ f, decode data len = Done (Some f) ∧
         (frame_originator f = self st ∨
          held (message_store st) (frame_originator f) (message_id f))))
  ∨ (∃ f, decode data len = Done (Some f) ∧ frame_originator f ≠ self st ∧
          ¬ held (message_store st) (frame_originator f) (message_id f) ∧
          st' = with_store st
                  (insert_front (message_store st)
                     (MessageInfo (frame_originator f) from (message_id f))) ∧
          dispatch st' f = Done events).
Proof.
  intros Hws. rewrite receiveData_closed by done.
  destruct (decode data len) as [[f|]| |]; cbn [mbind outcome_bind];
    [|intros [= <- <-]; left; eauto|done..].
  destruct (memcmp6 _ _) eqn:Hself.
  { apply memcmp6_eq in Hself. intros [= <- <-]. left. eauto 7. }
  destruct (existsb _ _) eqn:Hseen.
  { apply held_iff in Hseen. intros [= <- <-]. left. eauto 7. }
  cbn zeta. destruct (dispatch _ f) as [evs| |] eqn:Hd; [|done..].
  intros [= <- <-]. right. exists f.
  apply memcmp6_ne in Hself. apply not_held_iff in Hseen. done.
Qed.

(** ** Invariants of reachable states *)

Lemma reachable_well_sized ok me st :
  reachable_by ok me st → well_sized st ∧ self st = me.
Proof.
  induction 1 as [|st from data len st' events _ [IH1 IH2] _ Hrun
                  |st msg st' events _ [IH1 IH2] Hrun
                  |st msg t st' events _ [IH1 IH2] Hrun
                  |st arg status _ [IH1 IH2]].
  - split; [|done]. apply length_replicate.
  - apply receiveData_Done in Hrun; [|done].
    destruct Hrun as [(-> & _)|(f & _ & _ & _ & -> & _)]; [done|].
    split; [|done]. unfold well_sized, with_store. cbn [message_store].
    by apply length_insert_front.
  - unfold send in Hrun.
    destruct (sendBroadcast _ _ _); simplify_eq/=. done.
  - unfold send_to in Hrun.
    destruct (sendTargeted _ _ _ _ _); simplify_eq/=. done.
  - by destruct status.
Qed.

Lemma reachable_tidy me st :
  reachable_by nonzero_id me st →
  tidy (message_store st) ∧ NoDup (key <$> scanned (message_store st)).
Proof.
  induction 1 as [|st from data len st' events Hst [IH1 IH2] Hok Hrun
                  |st msg st' events _ [IH1 IH2] Hrun
                  |st msg t st' events _ [IH1 IH2] Hrun
                  |st arg status _ [IH1 IH2]].
  - split; [|constructor].
    vm_compute. repeat constructor.
  - destruct (reachable_well_sized _ _ _ Hst) as [Hws _].
    apply receiveData_Done in Hrun; [|done].
    destruct Hrun as [(-> & _)|(f & Hf & _ & Hnew & -> & _)]; [done|].
    pose proof (Hok f Hf) as Hnz. pose proof (decode_id_range _ _ _ Hf) as Hrange.
    destruct (scanned_insert_front (message_store st)
                (MessageInfo (frame_originator f) from (message_id f)))
      as [Hsc Ht]; [done..|simpl; unfold nonzero_id in Hnz; lia|].
    unfold with_store. cbn [message_store].
    split; [done|]. rewrite Hsc, fmap_cons. apply NoDup_cons. split.
    + intros (m & Hkey & Hin)%list_elem_of_fmap. apply Hnew.
      exists m. split.
      { apply elem_of_take in Hin as (i & Hi & _). by eapply list_elem_of_lookup_2. }
      unfold key in Hkey. simpl in Hkey. by injection Hkey as <- <-.
    + rewrite fmap_take. eapply sublist_NoDup; [done | apply sublist_take].
  - unfold send in Hrun.
    destruct (sendBroadcast _ _ _); simplify_eq/=. done.
  - unfold send_to in Hrun.
    destruct (sendTargeted _ _ _ _ _); simplify_eq/=. done.
  - by destruct status.
Qed.

(** ** Receipts that are dropped, sends that complete *)

Lemma frame_of_tokens_count tokens :
  length tokens ≠ 15 → frame_of_tokens tokens = None.
Proof.
  intros Hlen. do 15 (destruct tokens as [|? tokens]; [done|]).
  by destruct tokens.
Qed.

Lemma undecodable_dropped st from data len :
  decode data len = Done None → receiveData st from data len = Done (st, []).
Proof. intros Hnone. unfold receiveData. by rewrite Hnone. Qed.

Lemma held_dropped st from data len f :
  well_sized st →
  decode data len = Done (Some f) →
  held (message_store st) (frame_originator f) (message_id f) →
  receiveData st from data len = Done (st, []).
Proof.
  intros Hws Hf Hheld. rewrite receiveData_closed, Hf by done.
  cbn [mbind outcome_bind].
  apply held_iff in Hheld. rewrite Hheld. by destruct (memcmp6 _ _).
Qed.

Lemma echo_dropped st from data len f :
  decode data len = Done (Some f) →
  frame_originator f = self st →
  receiveData st from data len = Done (st, []).
Proof.
  intros Hf Hself. unfold receiveData. rewrite Hf. cbn [mbind outcome_bind].
  by rewrite Hself, memcmp6_refl.
Qed.

(** A receipt whose frame passes the three gates. *)
Lemma receive_fresh_frame st from data len f :
  well_sized st →
  decode data len = Done (Some f) →
  frame_originator f ≠ self st →
  ¬ held (message_store st) (frame_originator f) (message_id f) →
  receiveData st from data len =
    (let st' := with_store st
                  (insert_front (message_store st)
                     (MessageInfo (frame_originator f) from (message_id f))) in
     events ← dispatch st' f; Done (st', events)).
Proof.
  intros Hws Hf Ho Hnew. rewrite receiveData_closed, Hf by done.
  cbn [mbind outcome_bind].
  apply memcmp6_ne in Ho. apply not_held_iff in Hnew. by rewrite Ho, Hnew.
Qed.

(** [sendTargeted] in closed form: the line must fit [data]; then the first
    usable entry gives the route, an empty slot ends the scan, and a store
    without either sends the scan past its end. *)
Lemma sendTargeted_closed st message o t mid :
  well_sized st →
  sendTargeted st message o t mid =
    if decide (length (targeted_data message o t mid) < MAX_MSG_LEN) then
      match List.find (usable_route (peers st) t) (scanned (message_store st)) with
      | Some m => Done (sendMessage (Some (sender m)) (targeted_data message o t mid))
      | None =>
          if decide (length (scanned (message_store st)) < STORED_MESSAGES)
          then Done (sendMessage None (targeted_data message o t mid))
          else OutOfBounds STORED_MESSAGES
      end
    else OutOfBounds MAX_MSG_LEN.
Proof.
  intros Hws. unfold sendTargeted, char_array. case_decide; [|done].
  cbn [mbind outcome_bind].
  rewrite route_scan_closed by (done || lia). by rewrite drop_0.
Qed.

Lemma sendBroadcast_closed message o mid :
  sendBroadcast message o mid =
    if decide (length (broadcast_data message o mid) < MAX_MSG_LEN)
    then Done (sendMessage None (broadcast_data message o mid))
    else OutOfBounds MAX_MSG_LEN.
Proof. unfold sendBroadcast, char_array. by case_decide. Qed.

(** The bounded scans never use up their budget. *)
Lemma sendTargeted_fuel st message o t mid :
  well_sized st → sendTargeted st message o t mid ≠ OutOfFuel.
Proof.
  intros Hws. rewrite sendTargeted_closed by done.
  case_decide; [|done]. destruct (List.find _ _); [done|]. by case_decide.
Qed.

Lemma dispatch_outcome st f :
  well_sized st →
  (∃ events b, dispatch st f = Done events ∧
               callbacks events = [receiveCallback (message f) b (frame_originator f)])
  ∨ (message_type f = 2%Z ∧ target f ≠ self st ∧
     dispatch st f = OutOfBounds STORED_MESSAGES)
  ∨ ((message_type f = 1 ∨ message_type f = 2)%Z ∧ target f ≠ self st ∧
     MAX_MSG_LEN ≤ length (encode f) ∧
     dispatch st f = OutOfBounds MAX_MSG_LEN).
Proof.
  intros Hws. unfold dispatch, encode.
  destruct (memcmp6 (target f) (self st)) eqn:Ht; [left; eauto|].
  apply memcmp6_ne in Ht.
  destruct (message_type f =? 1)%Z eqn:H1.
  { apply Z.eqb_eq in H1. rewrite sendBroadcast_closed.
    case_decide; [left; eauto|]. right. right.
    split; [by left|]. split; [done|]. split; [lia|done]. }
  destruct (message_type f =? 2)%Z eqn:H2; [|left; eauto].
  apply Z.eqb_eq in H2.
  rewrite sendTargeted_closed by done.
  case_decide; cycle 1.
  { right. right. split; [by right|]. split; [done|]. split; [lia|done]. }
  destruct (List.find _ _); [left; eauto|].
  case_decide; [left; eauto | right; by left].
Qed.

(** A receipt completes, or runs off the end of the store or of a character
    array; it never exhausts the budget of a scan. *)
Lemma receiveData_outcome st from data len :
  well_sized st →
  (∃ r, receiveData st from data len = Done r)
  ∨ receiveData st from data len = OutOfBounds STORED_MESSAGES
  ∨ receiveData st from data len = OutOfBounds MAX_MSG_LEN.
Proof.
  intros Hws. rewrite receiveData_closed, decode_tokens by done.
  case_decide; [left; by eexists|].
  case_decide; [|right; by right]. cbn [mbind outcome_bind].
  destruct (frame_of_tokens _) as [f|]; [|left; by eexists].
  destruct (memcmp6 _ _); [left; by eexists|].
  destruct (existsb _ _); [left; by eexists|]. cbn zeta.
  set (st' := with_store st _).
  destruct (dispatch_outcome st' f) as [(events & b & -> & _)|[(_ & _ & ->)|(_ & _ & _ & ->)]].
  - by apply length_insert_front.
  - left. by eexists.
  - right. by left.
  - right. by right.
Qed.

Lemma route_scan_sends fuel i store ps t data e :
  route_scan fuel i store ps t data = Done e → ∃ hop, e = esp_now_send hop (c_str data).
Proof.
  revert i. induction fuel as [|fuel IH]; intros i; cbn [route_scan];
    (destruct (rd store i) as [m| |]; [|done..]); cbn [mbind outcome_bind];
    (destruct (_ && _); [|intros [= <-]; by eexists]);
    (destruct (_ && _); [intros [= <-]; by eexists|]); [done|apply IH].
Qed.

Lemma sendTargeted_sends st message o t mid e :
  sendTargeted st message o t mid = Done e → ∃ hop d, e = esp_now_send hop d.
Proof.
  unfold sendTargeted. destruct (char_array _) as [data| |]; [|done..].
  cbn [mbind outcome_bind]. intros [hop ->]%route_scan_sends. by eexists _, _.
Qed.

(** In the code the flag handed to the callback is [false] exactly when the
    frame's target is this node. *)
Lemma dispatch_flag st f events msg b o :
  dispatch st f = Done events →
  receiveCallback msg b o ∈ events →
  b = negb (memcmp6 (target f) (self st)).
Proof.
  unfold dispatch. destruct (memcmp6 (target f) (self st)).
  - intros [= <-] Hin. apply list_elem_of_singleton in Hin. by injection Hin.
  - destruct (message_type f =? 1)%Z; [|destruct (message_type f =? 2)%Z].
    + rewrite sendBroadcast_closed. case_decide; [|done]. cbn [mbind outcome_bind].
      intros [= <-] [Hin|Hin%list_elem_of_singleton]%elem_of_cons; [done|].
      by injection Hin.
    + destruct (sendTargeted _ _ _ _ _) as [e| |] eqn:He; [|done..].
      apply sendTargeted_sends in He as (hop & d & ->).
      intros [= <-] [Hin|Hin%list_elem_of_singleton]%elem_of_cons; [done|].
      by injection Hin.
    + intros [= <-] Hin%list_elem_of_singleton. by injection Hin.
Qed.

(** * Deduplication *)

Lemma receive_all_reachable ok me st rs st' events :
  reachable_by ok me st →
  Forall (fun r => ∀ f, decode r.2 (length r.2) = Done (Some f) → ok f) rs →
  receive_all st rs = Done (st', events) →
  reachable_by ok me st'.
Proof.
  revert st events. induction rs as [|[from data] rs IH]; intros st events Hreach Hok;
    cbn [receive_all].
  - by intros [= <- <-].
  - apply Forall_cons in Hok as [Hr Hok].
    destruct (receiveData st from data (length data)) as [[st1 ev1]| |] eqn:H1; [|done..].
    cbn. destruct (receive_all st1 rs) as [[st2 ev2]| |] eqn:H2; [|done..].
    cbn. intros [= <- <-]. eapply IH; [|done..].
    by eapply reach_receive.
Qed.

(** A stored entry moves back by at most one slot per receipt. *)
Lemma slot_shifts me st from data len st' events i m :
  reachable_by nonzero_id me st →
  (∀ f, decode data len = Done (Some f) → nonzero_id f) →
  receiveData st from data len = Done (st', events) →
  scanned (message_store st) !! i = Some m →
  S i < STORED_MESSAGES →
  ∃ j, j ≤ S i ∧ scanned (message_store st') !! j = Some m.
Proof.
  intros Hreach Hok Hrun Hi Hroom.
  destruct (reachable_well_sized _ _ _ Hreach) as [Hws _].
  destruct (reachable_tidy _ _ Hreach) as [Htidy _].
  apply receiveData_Done in Hrun; [|done].
  destruct Hrun as [(-> & _)|(f & Hf & _ & _ & -> & _)].
  - exists i. split; [lia | done].
  - pose proof (Hok f Hf) as Hnz. pose proof (decode_id_range _ _ _ Hf).
    destruct (scanned_insert_front (message_store st)
                (MessageInfo (frame_originator f) from (message_id f)))
      as [Hsc _]; [done..|simpl; unfold nonzero_id in Hnz; lia|].
    exists (S i). split; [lia|]. unfold with_store. cbn [message_store].
    rewrite Hsc, lookup_cons_ne_0 by lia. cbn [pred].
    rewrite lookup_take_lt by lia. done.
Qed.

Lemma slot_survives me st rs st' events i m :
  reachable_by nonzero_id me st →
  nonzero_ids rs →
  receive_all st rs = Done (st', events) →
  scanned (message_store st) !! i = Some m →
  i + length rs < STORED_MESSAGES →
  ∃ j, j ≤ i + length rs ∧ scanned (message_store st') !! j = Some m.
Proof.
  revert st events i. induction rs as [|[from data] rs IH];
    intros st events i Hreach Hok; cbn [receive_all length].
  - intros [= <- <-] Hi _. exists i. split; [lia | done].
  - apply Forall_cons in Hok as [Hr Hok]. cbn [snd] in Hr.
    destruct (receiveData st from data (length data)) as [[st1 ev1]| |] eqn:H1; [|done..].
    cbn. destruct (receive_all st1 rs) as [[st2 ev2]| |] eqn:H2; [|done..].
    cbn. intros [= <- <-] Hi Hroom.
    destruct (slot_shifts _ _ _ _ _ _ _ i m Hreach Hr H1 Hi) as (j & Hj & Hm); [lia|].
    destruct (IH st1 ev2 j) as (j' & Hj' & Hm'); [by eapply reach_receive|done..|lia|].
    exists j'. split; [lia | done].
Qed.

(** C1, as the code has it.  In every state reached through frames with a
    non-zero message id, and for a frame with a non-zero id from another
    originator: if its (originator, message id) pair is held by the store,
    the receipt is dropped, leaving the node unchanged and producing no
    event; if the pair is not held and the receipt completes, then after up
    to [STORED_MESSAGES - 1] further receipts every receipt of the same
    pair, from any neighbour and in any encoding, is dropped in that way;
    and no two slots with a non-zero id carry the same pair. *)
Theorem duplicate_dropped_while_held me st from data len f :
  reachable_by nonzero_id me st →
  decode data len = Done (Some f) →
  frame_originator f ≠ me →
  message_id f ≠ 0%Z →
  (held (message_store st) (frame_originator f) (message_id f) →
   receiveData st from data len = Done (st, []))
  ∧ (¬ held (message_store st) (frame_originator f) (message_id f) →
     ∀ st1 ev1 rs st2 ev2,
       receiveData st from data len = Done (st1, ev1) →
       nonzero_ids rs →
       length rs < STORED_MESSAGES →
       receive_all st1 rs = Done (st2, ev2) →
       ∀ from2 data2 len2 f2,
         decode data2 len2 = Done (Some f2) →
         frame_originator f2 = frame_originator f →
         message_id f2 = message_id f →
         receiveData st2 from2 data2 len2 = Done (st2, []))
  ∧ (∀ i j m1 m2,
       message_store st !! i = Some m1 →
       message_store st !! j = Some m2 →
       id m1 ≠ 0%Z →
       originator m1 = originator m2 →
       id m1 = id m2 →
       i = j).
Proof.
  intros Hreach Hf Hother Hnz.
  destruct (reachable_well_sized _ _ _ Hreach) as [Hws Hself].
  destruct (reachable_tidy _ _ Hreach) as [Htidy Hnodup].
  split; [by apply held_dropped|]. split.
  - intros Hnew st1 ev1 rs st2 ev2 Hrun Hrs Hfew Hmore from2 data2 len2 f2 Hf2 Ho Hid.
    assert (Hok : ∀ f', decode data len = Done (Some f') → nonzero_id f')
      by (intros f' Hf'; rewrite Hf in Hf'; by injection Hf' as <-).
    assert (Hreach1 : reachable_by nonzero_id me st1) by by eapply reach_receive.
    assert (Hfront : scanned (message_store st1) !! 0
                     = Some (MessageInfo (frame_originator f) from (message_id f))).
    { apply receiveData_Done in Hrun; [|done].
      destruct Hrun as [(-> & _ & [Hnone|(f' & Hf' & [Hecho|Hheld])])
                       |(f' & Hf' & _ & _ & -> & _)].
      - congruence.
      - congruence.
      - rewrite Hf in Hf'. injection Hf' as <-.
        destruct Hnew. congruence.
      - rewrite Hf in Hf'. injection Hf' as <-.
        pose proof (decode_id_range _ _ _ Hf).
        destruct (scanned_insert_front (message_store st)
                    (MessageInfo (frame_originator f) from (message_id f)))
          as [Hsc _]; [done..|simpl; lia|].
        unfold with_store. cbn [message_store]. by rewrite Hsc. }
    destruct (slot_survives _ _ _ _ _ 0 _ Hreach1 Hrs Hmore Hfront) as (j & _ & Hj);
      [lia|].
    destruct (reachable_well_sized _ _ _
                (receive_all_reachable _ _ _ _ _ _ Hreach1 Hrs Hmore)) as [Hws2 _].
    apply (held_dropped _ _ _ _ f2); [done..|].
    rewrite Ho, Hid. eexists. split; [by eapply list_elem_of_lookup_2 | done].
  - intros i j m1 m2 Hi Hj Hid Ho Hids.
    pose proof (scanned_prefix (message_store st)) as Hpre.
    assert (Hin : ∀ n m, message_store st !! n = Some m → id m ≠ 0%Z →
                         scanned (message_store st) !! n = Some m).
    { intros n m Hn Hm. rewrite <- Hpre.
      destruct (decide (n < length (scanned (message_store st)))) as [Hlt|Hge].
      - by rewrite lookup_take_lt.
      - exfalso. apply Hm. unfold tidy in Htidy.
        rewrite Forall_forall in Htidy. apply Htidy.
        apply list_elem_of_lookup.
        exists (n - length (scanned (message_store st))).
        rewrite lookup_drop. rewrite <- Hn. f_equal. lia. }
    apply Hin in Hi; [|done]. apply Hin in Hj; [|congruence].
    apply (NoDup_lookup _ i j (key m1) Hnodup).
    + by rewrite list_lookup_fmap, Hi.
    + rewrite list_lookup_fmap, Hj. unfold key. simpl. by rewrite Ho, Hids.
Qed.

(** C1 at concrete receipts: the broadcast [hi 1] reaches the fresh node
    through [addr_B], two other broadcasts follow, and the first broadcast
    relayed by [addr_C] is then dropped. *)
Lemma duplicate_dropped_while_held_witness :
  reachable_by nonzero_id addr_self (begin addr_self)
  ∧ decode (hi 1) (length (hi 1)) = Done (Some (hi_frame 1))
  ∧ ∃ st1 ev1 st2 ev2,
      receiveData (begin addr_self) addr_B (hi 1) (length (hi 1)) = Done (st1, ev1)
      ∧ receive_all st1 (relayed [2; 3]%Z) = Done (st2, ev2)
      ∧ receiveData st2 addr_C (hi 1) (length (hi 1)) = Done (st2, []).
Proof.
  split; [constructor|]. split; [vm_compute; reflexivity|].
  destruct (receiveData (begin addr_self) addr_B (hi 1) (length (hi 1)))
    as [[st1 ev1]| |] eqn:Hrun; [|vm_compute in Hrun; discriminate..].
  destruct (receive_all st1 (relayed [2; 3]%Z)) as [[st2 ev2]| |] eqn:Hmore.
  2,3: vm_compute in Hrun; injection Hrun as <- <-; vm_compute in Hmore; discriminate.
  exists st1, ev1, st2, ev2. split; [reflexivity|]. split; [exact Hmore|].
  destruct (duplicate_dropped_while_held addr_self (begin addr_self) addr_B
              (hi 1) (length (hi 1)) (hi_frame 1)) as (_ & Hnext & _).
  - constructor.
  - vm_compute; reflexivity.
  - discriminate.
  - discriminate.
  - assert (Hnew : ¬ held (message_store (begin addr_self))
                       (frame_originator (hi_frame 1)) (message_id (hi_frame 1))).
    { intros (m & Hm & _). vm_compute in Hm. by apply elem_of_nil in Hm. }
    assert (Hrs : nonzero_ids (relayed [2; 3]%Z)).
    { repeat constructor; cbn [snd]; intros f' Hf'; vm_compute in Hf';
        injection Hf' as <-; discriminate. }
    assert (Hfew : length (relayed [2; 3]%Z) < STORED_MESSAGES)
      by (cbn; unfold STORED_MESSAGES; lia).
    apply (Hnext Hnew st1 ev1 (relayed [2; 3]%Z) st2 ev2 Hrun Hrs Hfew Hmore
             addr_C (hi 1) (length (hi 1)) (hi_frame 1));
      [vm_compute; reflexivity | reflexivity | reflexivity].
Defined.

(** C1 as stated fails once the store has turned over: after ten other
    broadcasts the first one is stored, delivered and resent again. *)
Lemma duplicate_stored_again_after_eviction :
  ∃ st events st' events',
    receive_all (begin addr_self) (relayed [1; 2; 3; 4; 5; 6; 7; 8; 9; 10; 11]%Z)
      = Done (st, events)
    ∧ receiveData st addr_B (hi 1) (length (hi 1)) = Done (st', events')
    ∧ message_store st' !! 0 = Some (MessageInfo addr_A addr_B 1)
    ∧ events' = [esp_now_send None (hi 1); receiveCallback (str "hi!") true addr_A].
Proof.
  do 4 eexists. split; [vm_compute; reflexivity|].
  split; [vm_compute; reflexivity|]. split; reflexivity.
Qed.

(** The empty-slot test [id > 0] also hides a stored frame behind a frame
    whose id is 0: the same pair then sits in the store twice. *)
Lemma zero_id_hides_entries :
  ∃ st events,
    receive_all (begin addr_self) (relayed [1; 0; 1]%Z) = Done (st, events)
    ∧ take 2 (message_store st)
      = [MessageInfo addr_A addr_B 1; MessageInfo addr_A addr_B 1].
Proof. do 2 eexists. split; [vm_compute; reflexivity | reflexivity]. Qed.

(** * Malformed frames *)

(** A frame longer than [MAX_MSG_LEN], or a text that fits the receive
    buffer and that [strtok] does not cut into exactly fifteen tokens, is
    dropped: the node (message store, peers, counter) is unchanged and
    nothing is sent or delivered. *)
Lemma malformed_dropped st from data len :
  MAX_MSG_LEN < len
  ∨ (length (received_message data len) < MAX_MSG_LEN
     ∧ length (strtok (received_message data len)) ≠ 15) →
  receiveData st from data len = Done (st, []).
Proof.
  intros Hbad. apply undecodable_dropped. rewrite decode_tokens.
  case_decide; [done|]. destruct Hbad as [?|[Hfits Hcount]]; [lia|].
  rewrite decide_True by done. f_equal. by apply frame_of_tokens_count.
Qed.

(** C8 at its failing input.  The length check lets a receipt of exactly
    [MAX_MSG_LEN] characters through; its text and terminator are then
    copied into [received_buffer], one byte past the end of the array,
    before the tokens are counted.  The same fourteen tokens in a shorter
    text are dropped as the claim says. *)
Theorem full_length_text_overruns_buffer :
  length full_length = MAX_MSG_LEN
  ∧ length (strtok (received_message full_length MAX_MSG_LEN)) = 14
  ∧ char_array (received_message full_length MAX_MSG_LEN) = OutOfBounds MAX_MSG_LEN
  ∧ receiveData (begin addr_self) addr_B full_length MAX_MSG_LEN
    = OutOfBounds MAX_MSG_LEN
  ∧ receiveData (begin addr_self) addr_B fourteen_tokens (length fourteen_tokens)
    = Done (begin addr_self, []).
Proof. repeat split; vm_compute; reflexivity. Qed.

(** * Delivery to the application *)

(** C2 as stated fails: a Targeted frame addressed to another node
    ([addr_C]) is handed to the callback of [addr_self] as well as
    forwarded. *)
Lemma targeted_at_other_delivered :
  decode targeted_at_C (length targeted_at_C)
    = Done (Some (Frame 2 addr_A addr_C 1 (str "hi!")))
  ∧ ∃ st',
      receiveData (begin addr_self) addr_B targeted_at_C (length targeted_at_C)
      = Done (st', [esp_now_send None targeted_at_C;
                    receiveCallback (str "hi!") true addr_A]).
Proof. split; [vm_compute; reflexivity|]. eexists. vm_compute. reflexivity. Qed.

(** C2, as the code has it.  The callback is invoked once, with the payload
    and the originator of the frame, for every accepted frame whatever its
    type and target, unless the forwarding fails first: the line rewritten
    for a frame of type 1 or 2 has [MAX_MSG_LEN] characters or more and
    overruns [data], or the route scan of a Targeted frame runs off the end
    of the message store.  A receipt longer than [MAX_MSG_LEN], or one whose
    text fits the receive buffer, that is not accepted changes nothing and
    reaches no callback. *)
Theorem callback_for_every_accepted_frame st from data len :
  well_sized st →
  (∀ f, accepted st data len f →
        (∃ st' events b,
            receiveData st from data len = Done (st', events)
            ∧ callbacks events = [receiveCallback (message f) b (frame_originator f)])
        ∨ (message_type f = 2%Z ∧ target f ≠ self st
           ∧ receiveData st from data len = OutOfBounds STORED_MESSAGES)
        ∨ ((message_type f = 1 ∨ message_type f = 2)%Z ∧ target f ≠ self st
           ∧ MAX_MSG_LEN ≤ length (encode f)
           ∧ receiveData st from data len = OutOfBounds MAX_MSG_LEN))
  ∧ (∀ f, accepted st data len f →
          length (encode f) < MAX_MSG_LEN →
          length (scanned (insert_front (message_store st)
                             (MessageInfo (frame_originator f) from (message_id f))))
          < STORED_MESSAGES →
          ∃ st' events b,
            receiveData st from data len = Done (st', events)
            ∧ callbacks events = [receiveCallback (message f) b (frame_originator f)])
  ∧ (MAX_MSG_LEN < len ∨ length (received_message data len) < MAX_MSG_LEN →
     (∀ f, ¬ accepted st data len f) →
     receiveData st from data len = Done (st, [])).
Proof.
  intros Hws.
  assert (Hrun : ∀ f, accepted st data len f →
            receiveData st from data len
            = (let st' := with_store st
                            (insert_front (message_store st)
                               (MessageInfo (frame_originator f) from (message_id f))) in
               events ← dispatch st' f; Done (st', events))).
  { intros f (Hf & Hother & Hnew). by apply receive_fresh_frame. }
  split; [|split].
  - intros f Hacc. rewrite (Hrun f Hacc). cbn zeta.
    set (st' := with_store st _).
    destruct (dispatch_outcome st' f)
      as [(events & b & -> & Hcb)|[(H2 & Ht & ->)|(Hty & Ht & Hlong & ->)]].
    + by apply length_insert_front.
    + left. by exists st', events, b.
    + right. by left.
    + right. by right.
  - intros f Hacc Hfits Hroom. rewrite (Hrun f Hacc). cbn zeta.
    set (store' := insert_front _ _) in *.
    assert (Hws' : well_sized (with_store st store')) by by apply length_insert_front.
    destruct (dispatch_outcome (with_store st store') f Hws')
      as [(events & b & -> & Hcb)|[(H2 & Ht & Hd)|(Hty & Ht & Hlong & _)]].
    + by eexists _, events, b.
    + exfalso. revert Hd. unfold dispatch. cbn [with_store self] in Ht |- *.
      rewrite (proj2 (memcmp6_ne _ _) Ht), H2.
      change (2 =? 1)%Z with false. change (2 =? 2)%Z with true. cbn iota.
      rewrite sendTargeted_closed by done. cbn [with_store message_store peers].
      case_decide; [|done]. destruct (List.find _ _); [done|].
      by rewrite decide_True.
    + lia.
  - intros Hshort Hnone. rewrite receiveData_closed, decode_tokens by done.
    case_decide; [done|]. destruct Hshort as [?|Hfits]; [lia|].
    rewrite decide_True by done. cbn [mbind outcome_bind].
    destruct (frame_of_tokens _) as [f|] eqn:Hf; [|done].
    destruct (memcmp6 _ _) eqn:Hself; [done|].
    destruct (existsb _ _) eqn:Hseen; [done|].
    destruct (Hnone f). split.
    { rewrite decode_tokens, decide_False, decide_True by lia. by rewrite Hf. }
    split; [by apply memcmp6_ne | by apply not_held_iff].
Qed.

Lemma callback_for_every_accepted_frame_witness :
  well_sized (begin addr_self)
  ∧ accepted (begin addr_self) (hi 1) (length (hi 1)) (hi_frame 1)
  ∧ ∃ st' events b,
      receiveData (begin addr_self) addr_B (hi 1) (length (hi 1)) = Done (st', events)
      ∧ callbacks events = [receiveCallback (str "hi!") b addr_A].
Proof.
  assert (Hws : well_sized (begin addr_self)) by reflexivity.
  assert (Hacc : accepted (begin addr_self) (hi 1) (length (hi 1)) (hi_frame 1)).
  { split; [vm_compute; reflexivity|]. split; [discriminate|].
    intros (m & Hm & _). vm_compute in Hm. by apply elem_of_nil in Hm. }
  split; [exact Hws|]. split; [exact Hacc|].
  destruct (callback_for_every_accepted_frame (begin addr_self) addr_B (hi 1)
              (length (hi 1)) Hws) as (_ & Hdeliver & _).
  apply (Hdeliver (hi_frame 1) Hacc).
  - vm_compute. lia.
  - vm_compute. lia.
Defined.

(** A line can grow when it is rewritten: sixty characters are received
    and accepted, the line formatted from the parsed values has 69, and the
    forwarding overruns [data] before the callback is reached. *)
Lemma rewritten_line_overruns_data :
  length minus_ones = 60
  ∧ decode minus_ones (length minus_ones)
    = Done (Some (Frame 1 (Mac 255 255 255 255 255 255) zero_mac 65535
                    (str "abcdefghijklmnopqrstuvwxy")))
  ∧ length (broadcast_data (str "abcdefghijklmnopqrstuvwxy")
              (Mac 255 255 255 255 255 255) 65535) = 69
  ∧ receiveData (begin addr_self) addr_B minus_ones (length minus_ones)
    = OutOfBounds MAX_MSG_LEN.
Proof. repeat split; vm_compute; reflexivity. Qed.

(** The flag of the scenario "A broadcasts, B receives": the code passes
    [true] for a broadcast and [false] for a frame targeted at this node. *)
Lemma flags_as_computed :
  (∃ st', receiveData (begin addr_self) addr_B (hi 1) (length (hi 1))
          = Done (st', [esp_now_send None (hi 1);
                        receiveCallback (str "hi!") true addr_A]))
  ∧ (∃ st', let data := targeted_data (str "hi!") addr_A addr_self 1 in
            receiveData (begin addr_self) addr_B data (length data)
            = Done (st', [receiveCallback (str "hi!") false addr_A])).
Proof. split; eexists; vm_compute; reflexivity. Qed.

(** * Routing of targeted frames *)

Lemma usable_route_iff ps t m :
  usable_route ps t m = true ↔ (originator m = t ∨ sender m = t) ∧ sender m ∈ ps.
Proof.
  unfold usable_route.
  by rewrite andb_true_iff, orb_true_iff, !memcmp6_eq, is_peer_elem.
Qed.

Lemma find_first {A} (P : A → bool) (l : list A) i x :
  l !! i = Some x → P x = true →
  (∀ j y, j < i → l !! j = Some y → P y = false) →
  List.find P l = Some x.
Proof.
  revert i. induction l as [|a l IH]; intros i Hi Hx Hbefore; [done|].
  destruct i as [|i]; simpl in *.
  - simplify_eq. by rewrite Hx.
  - rewrite (Hbefore 0 a) by (done || lia).
    apply (IH i); [done..|]. intros j y Hj Hy. apply (Hbefore (S j) y); [lia|done].
Qed.

Lemma find_nowhere {A} (P : A → bool) (l : list A) :
  (∀ x, x ∈ l → P x = false) → List.find P l = None.
Proof.
  induction l as [|a l IH]; intros Hall; [done|]. simpl.
  rewrite Hall by apply list_elem_of_here.
  apply IH. intros x Hx. apply Hall. by apply list_elem_of_further.
Qed.

(** A matching entry whose sender is no longer a peer is passed over.
    [addr_B] and [addr_C] are peers when the node hears [addr_A] through
    each of them; a later scan finds only [addr_C], so [addr_B] is removed.
    The scan then goes on past the entry of [addr_B] to the older entry, and
    the frame is unicast to [addr_C]. *)
Lemma stale_entry_passed_over :
  let both := scanDoneCallback (begin addr_self)
                [esp_ap addr_C (-40); esp_ap addr_B (-50)] OK in
  peers both = [addr_C; addr_B]
  ∧ (∃ st events,
       receive_all both [(addr_C, hi 1); (addr_B, hi 2)] = Done (st, events)
       ∧ scanDoneCallback st [esp_ap addr_C (-40)] OK = two_routes)
  ∧ message_store two_routes !! 0 = Some (MessageInfo addr_A addr_B 2)
  ∧ (addr_B ∉ peers two_routes)
  ∧ sendTargeted two_routes (str "yo") addr_self addr_A 1
    = Done (esp_now_send (Some addr_C) (targeted_data (str "yo") addr_self addr_A 1)).
Proof.
  split; [vm_compute; reflexivity|].
  split; [do 2 eexists; split; vm_compute; reflexivity|].
  split; [reflexivity|].
  split; [|vm_compute; reflexivity].
  intros Hin. apply list_elem_of_singleton in Hin. discriminate Hin.
Qed.

(** Among the entries the scan visits, a targeted frame whose line fits
    [data] behaves as C6 says: it is unicast only to an active peer, to the
    sender of the first entry in storage order (the most recent one) that
    matches the target and whose sender is an active peer; when no visited
    entry qualifies and the scan ends at an empty slot, the frame is handed
    to every peer. *)
Lemma route_to_first_usable_entry st message o t mid :
  well_sized st →
  let data := targeted_data message o t mid in
  let entries := scanned (message_store st) in
  let usable m := (originator m = t ∨ sender m = t) ∧ sender m ∈ peers st in
  length data < MAX_MSG_LEN →
  (∀ hop d, sendTargeted st message o t mid = Done (esp_now_send (Some hop) d) →
            hop ∈ peers st)
  ∧ (∀ i m, entries !! i = Some m → usable m →
            (∀ j m', j < i → entries !! j = Some m' → ¬ usable m') →
            sendTargeted st message o t mid = Done (sendMessage (Some (sender m)) data))
  ∧ ((∀ m, m ∈ entries → ¬ usable m) →
     length entries < STORED_MESSAGES →
     sendTargeted st message o t mid = Done (sendMessage None data)).
Proof.
  intros Hws data entries usable Hfits.
  assert (Hfalse : ∀ m, ¬ usable m → usable_route (peers st) t m = false).
  { intros m Hm. apply not_true_iff_false. by rewrite usable_route_iff. }
  rewrite sendTargeted_closed by done. fold entries data.
  rewrite decide_True by done. split; [|split].
  - intros hop d. destruct (List.find _ _) as [m|] eqn:Hfind.
    + apply find_some in Hfind as [_ Hm]. apply usable_route_iff in Hm as [_ Hpeer].
      unfold sendMessage. by intros [= <- _].
    + by case_decide.
  - intros i m Hi Hm Hbefore.
    rewrite (find_first _ _ i m); [done..| |].
    + by apply usable_route_iff.
    + intros j m' Hj Hm'. apply Hfalse. by apply (Hbefore j).
  - intros Hnone Hlen. rewrite find_nowhere by (intros m Hm; by apply Hfalse, Hnone).
    by rewrite decide_True.
Qed.

(** C6 at its failing input.  The node has [addr_C] as its one peer and
    hears a broadcast of [addr_A] (id 5) through it: a targeted send to
    [addr_A] is unicast to [addr_C], as the claim says.  Then a broadcast of
    [addr_D] with message id 0 arrives.  Its entry sits in slot 0, where the
    guard [id > 0] of the route scan takes it for the end of the entries:
    the entry of [addr_A] behind it, whose sender [addr_C] is still a peer,
    is never looked at, and the same send now goes to every peer. *)
Theorem zero_id_entry_hides_the_route :
  let node := scanDoneCallback (begin addr_self) [esp_ap addr_C (-40)] OK in
  let from_D := broadcast_data (str "hi!") addr_D 0 in
  let yo := targeted_data (str "yo") addr_self addr_A 1 in
  peers node = [addr_C]
  ∧ ∃ st1 ev1 st2 ev2,
      receiveData node addr_C (hi 5) (length (hi 5)) = Done (st1, ev1)
      ∧ send_to st1 (str "yo") addr_A = Done (next_id st1, [esp_now_send (Some addr_C) yo])
      ∧ receiveData st1 addr_C from_D (length from_D) = Done (st2, ev2)
      ∧ take 2 (message_store st2)
        = [MessageInfo addr_D addr_C 0; MessageInfo addr_A addr_C 5]
      ∧ peers st2 = [addr_C]
      ∧ send_to st2 (str "yo") addr_A = Done (next_id st2, [esp_now_send None yo]).
Proof.
  split; [vm_compute; reflexivity|].
  do 4 eexists. split; [vm_compute; reflexivity|].
  split; [vm_compute; reflexivity|].
  split; [vm_compute; reflexivity|].
  split; [reflexivity|]. split; [reflexivity|]. vm_compute. reflexivity.
Qed.

(** * The wire format *)

(** ** Printing and reading decimal numbers *)

Lemma digit_char_facts d :
  is_digit d →
  digit_value (digit_char d) = Some d
  ∧ isspace (digit_char d) = false
  ∧ Ascii.eqb (digit_char d) "-" = false
  ∧ Ascii.eqb (digit_char d) "+" = false
  ∧ Ascii.eqb (digit_char d) comma = false
  ∧ Ascii.eqb (digit_char d) NUL = false.
Proof.
  intros Hd. unfold is_digit in Hd.
  assert (d = 0 ∨ d = 1 ∨ d = 2 ∨ d = 3 ∨ d = 4 ∨ d = 5 ∨ d = 6 ∨ d = 7
          ∨ d = 8 ∨ d = 9)%Z as Hcases by lia.
  destruct_or!; subst d; vm_compute; done.
Qed.

Lemma digits_rev_digits fuel n : Forall is_digit (digits_rev fuel n).
Proof.
  revert n. induction fuel as [|fuel IH]; intros n; simpl; [constructor|].
  constructor.
  - unfold is_digit. apply Z.mod_pos_bound. lia.
  - destruct (n / 10 =? 0)%Z; [constructor | apply IH].
Qed.

Lemma digits_rev_value fuel n :
  (0 ≤ n < 10 ^ Z.of_nat fuel)%Z → value_rev (digits_rev fuel n) = n.
Proof.
  revert n. induction fuel as [|fuel IH]; intros n Hn.
  - simpl in *. lia.
  - cbn [digits_rev value_rev fold_right].
    pose proof (Z.div_mod n 10 ltac:(lia)) as Hdm.
    destruct (n / 10 =? 0)%Z eqn:Hq.
    + apply Z.eqb_eq in Hq. simpl. lia.
    + fold (value_rev (digits_rev fuel (n / 10))). rewrite IH; [lia|].
      rewrite Nat2Z.inj_succ, Z.pow_succ_r in Hn by lia.
      split; [apply Z.div_pos; lia|].
      apply Z.div_lt_upper_bound; lia.
Qed.

Lemma digits_value_app ds rest acc :
  Forall is_digit ds →
  digits_value (map digit_char ds ++ rest) acc
  = digits_value rest (fold_left (fun a d => a * 10 + d)%Z ds acc).
Proof.
  intros Hds. revert acc. induction Hds as [|d ds Hd _ IH]; intros acc; [done|].
  cbn [map app digits_value fold_left].
  destruct (digit_char_facts d Hd) as (-> & _). apply IH.
Qed.

Lemma fold_left_rev_value ds :
  fold_left (fun a d => a * 10 + d)%Z (rev ds) 0%Z = value_rev ds.
Proof.
  induction ds as [|d ds IH]; [done|].
  simpl. rewrite fold_left_app. simpl. rewrite IH. unfold value_rev. lia.
Qed.

Lemma utoa_head n :
  ∃ d ds, is_digit d ∧ Forall is_digit ds ∧ utoa n = digit_char d :: map digit_char ds.
Proof.
  unfold utoa.
  pose proof (digits_rev_digits 10 n) as Hds.
  apply Forall_rev in Hds.
  destruct (rev (digits_rev 10 n)) as [|d ds] eqn:Hrev.
  - apply (f_equal length) in Hrev. rewrite length_rev in Hrev.
    simpl in Hrev. lia.
  - apply Forall_cons in Hds as [Hd Hds]. by exists d, ds.
Qed.

Lemma toInt_utoa n : (0 ≤ n < 2 ^ 31)%Z → toInt (utoa n) = n.
Proof.
  intros Hn.
  assert (Hval : digits_value (utoa n) 0 = n).
  { unfold utoa. rewrite <- (app_nil_r (map _ _)).
    rewrite digits_value_app by apply Forall_rev, digits_rev_digits.
    cbn [digits_value]. rewrite fold_left_rev_value.
    apply digits_rev_value. change (10 ^ Z.of_nat 10)%Z with 10000000000%Z. lia. }
  destruct (utoa_head n) as (d & ds & Hd & _ & Heq).
  unfold toInt. rewrite Heq in Hval |- *.
  destruct (digit_char_facts d Hd) as (_ & Hsp & Hminus & Hplus & _).
  cbn [skip_spaces]. rewrite Hsp, Hminus, Hplus, Hval.
  unfold clamp_long, LONG_MIN, LONG_MAX. lia.
Qed.

Lemma utoa_plain n : plain (utoa n).
Proof.
  destruct (utoa_head n) as (d & ds & Hd & Hds & ->).
  assert (Hall : Forall is_digit (d :: ds)) by by constructor.
  change (digit_char d :: map digit_char ds) with (map digit_char (d :: ds)).
  split; [done|].
  split; intros (x & Hx & Hin)%list_elem_of_fmap;
    rewrite Forall_forall in Hall; destruct (digit_char_facts x (Hall x Hin))
      as (_ & _ & _ & _ & Hc & Hz).
  - rewrite <- Hx in Hc. by rewrite Ascii.eqb_refl in Hc.
  - rewrite <- Hx in Hz. by rewrite Ascii.eqb_refl in Hz.
Qed.

Lemma uint8_toInt_utoa b : (0 ≤ b < 256)%Z → uint8_t (toInt (utoa b)) = b.
Proof.
  intros Hb. rewrite toInt_utoa by lia. unfold uint8_t. by apply Z.mod_small.
Qed.

Lemma uint16_toInt_utoa n : (0 ≤ n < 65536)%Z → uint16_t (toInt (utoa n)) = n.
Proof.
  intros Hn. rewrite toInt_utoa by lia. unfold uint16_t. by apply Z.mod_small.
Qed.

(** ** Cutting a formatted line back into its fields *)

Lemma strtok_from_run t s tok :
  comma ∉ t → strtok_from (t ++ s) tok = strtok_from s (rev t ++ tok).
Proof.
  revert tok. induction t as [|c t IH]; intros tok Hc; [done|].
  apply not_elem_of_cons in Hc as [Hne Hc].
  cbn [app strtok_from]. rewrite (proj2 (Ascii.eqb_neq _ _)) by congruence.
  rewrite IH by done. simpl. by rewrite <- app_assoc.
Qed.

Lemma strtok_token_then t s :
  t ≠ [] → comma ∉ t → strtok (t ++ comma :: s) = t :: strtok s.
Proof.
  intros Hne Hc. unfold strtok. rewrite strtok_from_run, app_nil_r by done.
  cbn [strtok_from]. rewrite Ascii.eqb_refl.
  destruct (rev t) as [|c r] eqn:Hrev.
  - apply (f_equal (@rev ascii)) in Hrev. rewrite rev_involutive in Hrev. done.
  - by rewrite <- Hrev, rev_involutive.
Qed.

Lemma strtok_single t : t ≠ [] → comma ∉ t → strtok t = [t].
Proof.
  intros Hne Hc. unfold strtok. rewrite <- (app_nil_r t) at 1.
  rewrite strtok_from_run, app_nil_r by done. cbn [strtok_from].
  destruct (rev t) as [|c r] eqn:Hrev.
  - apply (f_equal (@rev ascii)) in Hrev. rewrite rev_involutive in Hrev. done.
  - by rewrite <- Hrev, rev_involutive.
Qed.

Lemma strtok_comma_separated ts last :
  Forall plain ts → strtok (comma_separated (ts ++ [last])) = ts ++ strtok last.
Proof.
  induction 1 as [|t ts (Hne & Hc & _) _ IH]; [done|].
  cbn [app]. destruct (ts ++ [last]) as [|x rest] eqn:Hrest.
  { by destruct ts. }
  cbn [comma_separated]. rewrite strtok_token_then by done.
  f_equal. exact IH.
Qed.

Lemma c_str_no_nul s : NUL ∉ c_str s.
Proof.
  induction s as [|c s IH]; simpl; [apply not_elem_of_nil|].
  destruct (Ascii.eqb c NUL) eqn:E; [apply not_elem_of_nil|].
  apply not_elem_of_cons. split; [|done].
  apply Ascii.eqb_neq in E. congruence.
Qed.

Lemma c_str_id s : NUL ∉ s → c_str s = s.
Proof.
  induction s as [|c s IH]; [done|]. intros [Hne Hs]%not_elem_of_cons.
  simpl. rewrite (proj2 (Ascii.eqb_neq _ _)) by congruence. by rewrite IH.
Qed.

Lemma comma_separated_no_nul ts :
  Forall (fun t => NUL ∉ t) ts → NUL ∉ comma_separated ts.
Proof.
  induction 1 as [|t ts Ht _ IH]; [apply not_elem_of_nil|].
  destruct ts as [|x rest]; [done|].
  cbn [comma_separated]. rewrite elem_of_app, elem_of_cons.
  intros [?|[?|?]]; [done|discriminate|done].
Qed.

Lemma received_whole data : NUL ∉ data → received_message data (length data) = data.
Proof.
  intros Hnul. unfold received_message. rewrite c_str_id by done. by apply take_ge.
Qed.

Lemma plain_char c : c ≠ comma → c ≠ NUL → plain [c].
Proof.
  intros Hc Hz. split; [done|].
  split; intros Hin%list_elem_of_singleton; congruence.
Qed.

(** ** Encoding a frame and decoding it again *)

(** Both format strings produce a one-character type, twelve address bytes
    and the message id, then the message. *)
Section line.
Variables (kind : ascii) (o t : mac_addr) (mid : Z).
Hypothesis kind_not_comma : kind ≠ comma.
Hypothesis kind_not_NUL : kind ≠ NUL.

Let header : list (list ascii) :=
  [ [kind];
    utoa (byte0 o); utoa (byte1 o); utoa (byte2 o);
    utoa (byte3 o); utoa (byte4 o); utoa (byte5 o);
    utoa (byte0 t); utoa (byte1 t); utoa (byte2 t);
    utoa (byte3 t); utoa (byte4 t); utoa (byte5 t);
    utoa mid ].

Lemma header_plain : Forall plain header.
Proof.
  repeat (constructor; [first [by apply plain_char | apply utoa_plain]|]).
  constructor.
Qed.

Lemma line_no_nul msg : NUL ∉ comma_separated (header ++ [c_str msg]).
Proof.
  apply comma_separated_no_nul, Forall_app. split.
  - eapply Forall_impl; [exact header_plain|]. by intros ? (_ & _ & ?).
  - constructor; [apply c_str_no_nul | constructor].
Qed.

Lemma decode_line msg :
  valid_mac o → valid_mac t → (0 ≤ mid < 65536)%Z →
  let line := comma_separated (header ++ [c_str msg]) in
  length line < MAX_MSG_LEN →
  decode line (length line) =
    Done match strtok (c_str msg) with
         | [payload] => Some (Frame (uint8_t (toInt [kind])) o t mid payload)
         | _ => None
         end.
Proof.
  intros Ho Ht Hmid line Hlen.
  rewrite decode_tokens, decide_False by lia.
  rewrite received_whole by apply line_no_nul.
  rewrite decide_True by done. f_equal.
  unfold line. rewrite strtok_comma_separated by exact header_plain.
  destruct (strtok (c_str msg)) as [|payload [|? ?]]; [done| |done].
  cbn [app header frame_of_tokens]. unfold valid_mac in *.
  rewrite !uint8_toInt_utoa, uint16_toInt_utoa by lia.
  by destruct o, t.
Qed.
End line.

Lemma broadcast_data_line message o mid :
  broadcast_data message o mid =
    comma_separated
      ([ ["1"%char];
         utoa (byte0 o); utoa (byte1 o); utoa (byte2 o);
         utoa (byte3 o); utoa (byte4 o); utoa (byte5 o);
         utoa (byte0 zero_mac); utoa (byte1 zero_mac); utoa (byte2 zero_mac);
         utoa (byte3 zero_mac); utoa (byte4 zero_mac); utoa (byte5 zero_mac);
         utoa mid ] ++ [c_str message]).
Proof. reflexivity. Qed.

Lemma targeted_data_line message o t mid :
  targeted_data message o t mid =
    comma_separated
      ([ ["2"%char];
         utoa (byte0 o); utoa (byte1 o); utoa (byte2 o);
         utoa (byte3 o); utoa (byte4 o); utoa (byte5 o);
         utoa (byte0 t); utoa (byte1 t); utoa (byte2 t);
         utoa (byte3 t); utoa (byte4 t); utoa (byte5 t);
         utoa mid ] ++ [c_str message]).
Proof. reflexivity. Qed.

Lemma valid_zero_mac : valid_mac zero_mac.
Proof. literal_mac. Qed.

Lemma decode_broadcast_data message o mid :
  valid_mac o → (0 ≤ mid < 65536)%Z →
  length (broadcast_data message o mid) < MAX_MSG_LEN →
  decode (broadcast_data message o mid) (length (broadcast_data message o mid)) =
    Done match strtok (c_str message) with
         | [payload] => Some (Frame 1 o zero_mac mid payload)
         | _ => None
         end.
Proof.
  intros Ho Hmid. rewrite broadcast_data_line. intros Hlen.
  by rewrite decode_line by (done || apply valid_zero_mac).
Qed.

Lemma decode_targeted_data message o t mid :
  valid_mac o → valid_mac t → (0 ≤ mid < 65536)%Z →
  length (targeted_data message o t mid) < MAX_MSG_LEN →
  decode (targeted_data message o t mid) (length (targeted_data message o t mid)) =
    Done match strtok (c_str message) with
         | [payload] => Some (Frame 2 o t mid payload)
         | _ => None
         end.
Proof.
  intros Ho Ht Hmid. rewrite targeted_data_line. intros Hlen.
  by rewrite decode_line by done.
Qed.

(** C5, as the code has it.  A valid frame, its line shorter than
    [MAX_MSG_LEN], whose payload is not empty and holds neither a comma nor
    a NUL is written into [data] whole and is decoded from that line
    unchanged. *)
Theorem decode_encode f :
  valid_frame f →
  message f ≠ [] →
  NUL ∉ message f →
  char_array (encode f) = Done (encode f)
  ∧ decode (encode f) (length (encode f)) = Done (Some f).
Proof.
  intros Hvalid Hne Hnul. split.
  { apply char_array_fits. by destruct Hvalid as (_ & _ & _ & _ & _ & ?). }
  revert Hvalid Hne Hnul.
  intros (Hkind & Ho & Ht & Hmid & Hcomma & Hlen) Hne Hnul.
  destruct f as [ty o t mid msg]. cbn [message_type frame_originator target
    message_id message] in *.
  unfold encode in *. cbn [message_type frame_originator target
    message_id message] in *.
  destruct Hkind as [[-> ->]| ->].
  - change (1 =? 1)%Z with true in *. cbv iota in *.
    rewrite decode_broadcast_data by done.
    by rewrite c_str_id, strtok_single by done.
  - change (2 =? 1)%Z with false in *. cbv iota in *.
    rewrite decode_targeted_data by done.
    by rewrite c_str_id, strtok_single by done.
Qed.

Lemma decode_encode_witness :
  valid_frame sample_targeted
  ∧ encode sample_targeted = str "2,10,0,0,0,0,1,10,0,0,0,0,3,65535,hi!"
  ∧ decode (encode sample_targeted) (length (encode sample_targeted))
    = Done (Some sample_targeted).
Proof.
  assert (Hvalid : valid_frame sample_targeted).
  { split; [by right|]. unfold valid_mac. simpl.
    split; [lia|]. split; [lia|]. split; [lia|].
    split; [literal_not_elem | vm_compute; lia]. }
  split; [exact Hvalid|]. split; [reflexivity|].
  apply (decode_encode sample_targeted Hvalid); [discriminate | literal_not_elem].
Defined.

(** C5 as stated fails: a frame with an empty payload is encoded to a line
    from which [strtok] cuts fourteen tokens, so it does not decode; and a
    payload is put on the air only up to its first NUL. *)
Lemma payload_not_recovered :
  (valid_frame empty_payload
   ∧ encode empty_payload = str "1,10,0,0,0,0,1,0,0,0,0,0,0,7,"
   ∧ decode (encode empty_payload) (length (encode empty_payload)) = Done None)
  ∧ (valid_frame nul_payload
     ∧ encode nul_payload = str "1,10,0,0,0,0,1,0,0,0,0,0,0,7,a"
     ∧ decode (encode nul_payload) (length (encode nul_payload))
       = Done (Some (Frame 1 addr_A zero_mac 7 (str "a")))).
Proof.
  split.
  - split; [|split; [reflexivity | vm_compute; reflexivity]].
    split; [by left|]. unfold valid_mac. simpl.
    split; [lia|]. split; [lia|]. split; [lia|].
    split; [apply not_elem_of_nil | vm_compute; lia].
  - split; [|split; [reflexivity | vm_compute; reflexivity]].
    split; [by left|]. unfold valid_mac. simpl.
    split; [lia|]. split; [lia|]. split; [lia|].
    split; [literal_not_elem | vm_compute; lia].
Qed.

(** * Self-originated frames *)

Lemma broadcast_data_no_nul message o mid : NUL ∉ broadcast_data message o mid.
Proof. rewrite broadcast_data_line. by apply line_no_nul. Qed.

Lemma targeted_data_no_nul message o t mid : NUL ∉ targeted_data message o t mid.
Proof. rewrite targeted_data_line. by apply line_no_nul. Qed.

Lemma own_broadcast_dropped st from message mid :
  valid_mac (self st) → (0 ≤ mid < 65536)%Z →
  length (broadcast_data message (self st) mid) < MAX_MSG_LEN →
  receiveData st from (broadcast_data message (self st) mid)
    (length (broadcast_data message (self st) mid)) = Done (st, []).
Proof.
  intros Hself Hmid Hlen.
  pose proof (decode_broadcast_data message _ _ Hself Hmid Hlen) as Hdec.
  destruct (strtok (c_str message)) as [|payload [|? ?]];
    try by apply undecodable_dropped.
  by eapply echo_dropped.
Qed.

Lemma own_targeted_dropped st from message t mid :
  valid_mac (self st) → valid_mac t → (0 ≤ mid < 65536)%Z →
  length (targeted_data message (self st) t mid) < MAX_MSG_LEN →
  receiveData st from (targeted_data message (self st) t mid)
    (length (targeted_data message (self st) t mid)) = Done (st, []).
Proof.
  intros Hself Ht Hmid Hlen.
  pose proof (decode_targeted_data message _ _ _ Hself Ht Hmid Hlen) as Hdec.
  destruct (strtok (c_str message)) as [|payload [|? ?]];
    try by apply undecodable_dropped.
  by eapply echo_dropped.
Qed.

(** A completed send: the counter has advanced, the line fitted [data] and
    went out with this node as originator. *)
Lemma send_Done st message st' events :
  send st message = Done (st', events) →
  st' = next_id st
  ∧ events = [esp_now_send None
                (broadcast_data message (self st) (uint16_t (last_message_id st + 1)))]
  ∧ length (broadcast_data message (self st) (uint16_t (last_message_id st + 1)))
    < MAX_MSG_LEN.
Proof.
  unfold send. cbn [next_id self last_message_id]. rewrite sendBroadcast_closed.
  case_decide; [|done]. cbn [mbind outcome_bind].
  intros [= <- <-]. split; [done|]. split; [|done].
  unfold sendMessage. by rewrite c_str_id by apply broadcast_data_no_nul.
Qed.

Lemma send_fits st message :
  length (broadcast_data message (self st) (uint16_t (last_message_id st + 1)))
  < MAX_MSG_LEN →
  send st message
  = Done (next_id st,
          [esp_now_send None
             (broadcast_data message (self st) (uint16_t (last_message_id st + 1)))]).
Proof.
  intros Hlen. unfold send. cbn [next_id self last_message_id].
  rewrite sendBroadcast_closed, decide_True by done. cbn [mbind outcome_bind].
  unfold sendMessage. by rewrite c_str_id by apply broadcast_data_no_nul.
Qed.

Lemma sendTargeted_Done st message o t mid e :
  sendTargeted st message o t mid = Done e →
  (∃ hop, e = esp_now_send hop (targeted_data message o t mid))
  ∧ length (targeted_data message o t mid) < MAX_MSG_LEN.
Proof.
  unfold sendTargeted. destruct (char_array _) as [buffer| |] eqn:Hbuf; [|done..].
  apply char_array_Done in Hbuf as [-> Hlen]. cbn [mbind outcome_bind].
  intros [hop ->]%route_scan_sends. split; [|done]. exists hop.
  by rewrite c_str_id by apply targeted_data_no_nul.
Qed.

Lemma send_to_Done st message t st' events :
  send_to st message t = Done (st', events) →
  st' = next_id st
  ∧ (∃ hop, events = [esp_now_send hop
                        (targeted_data message (self st) t
                           (uint16_t (last_message_id st + 1)))])
  ∧ length (targeted_data message (self st) t (uint16_t (last_message_id st + 1)))
    < MAX_MSG_LEN.
Proof.
  unfold send_to. cbn [next_id self last_message_id].
  destruct (sendTargeted _ _ _ _ _) as [e| |] eqn:He; [|done..].
  apply sendTargeted_Done in He as [[hop ->] Hlen]. cbn [mbind outcome_bind].
  intros [= <- <-]. split; [done|]. split; [|done]. by exists hop.
Qed.

(** C7 as stated fails: after the first [send] of a fresh node the frame is
    on the air, but no slot of the message store holds (self, 1, self). *)
Lemma send_leaves_no_entry :
  ∃ st',
    send (begin addr_self) (str "hi!")
      = Done (st', [esp_now_send None (broadcast_data (str "hi!") addr_self 1)])
    ∧ ¬ ∃ m, m ∈ message_store st'
              ∧ originator m = addr_self ∧ sender m = addr_self ∧ id m = 1%Z.
Proof.
  eexists. split; [vm_compute; reflexivity|].
  intros (m & Hm & _ & _ & Hid). cbn [message_store] in Hm.
  repeat (apply elem_of_cons in Hm as [->|Hm]; [discriminate Hid|]).
  by apply elem_of_nil in Hm.
Qed.

(** C7, as the code has it.  Both send functions leave the message store as
    it was: a send that completes has advanced the message counter (modulo
    2^16) and transmitted the frame with this node as originator.  The echo
    of such a frame is caught by the originator check of [receiveData],
    which drops it and changes nothing.  A broadcast send completes when its
    line is shorter than [MAX_MSG_LEN]; a targeted send completes when its
    line is that short and the store has an empty slot. *)
Theorem send_records_nothing st message t :
  valid_mac (self st) →
  valid_mac t →
  let mid := uint16_t (last_message_id st + 1) in
  (∀ st' events,
     send st message = Done (st', events) →
     message_store st' = message_store st
     ∧ last_message_id st' = mid
     ∧ events = [esp_now_send None (broadcast_data message (self st) mid)]
     ∧ ∀ from, receiveData st' from (broadcast_data message (self st) mid)
                 (length (broadcast_data message (self st) mid)) = Done (st', []))
  ∧ (∀ st' events,
       send_to st message t = Done (st', events) →
       message_store st' = message_store st
       ∧ last_message_id st' = mid
       ∧ (∃ hop, events = [esp_now_send hop (targeted_data message (self st) t mid)])
       ∧ ∀ from, receiveData st' from (targeted_data message (self st) t mid)
                   (length (targeted_data message (self st) t mid)) = Done (st', []))
  ∧ (length (broadcast_data message (self st) mid) < MAX_MSG_LEN →
     ∃ st' events, send st message = Done (st', events))
  ∧ (well_sized st →
     length (targeted_data message (self st) t mid) < MAX_MSG_LEN →
     length (scanned (message_store st)) < STORED_MESSAGES →
     ∃ st' events, send_to st message t = Done (st', events)).
Proof.
  intros Hself Ht mid.
  assert (Hmid : (0 ≤ mid < 65536)%Z) by (apply Z.mod_pos_bound; lia).
  split; [|split; [|split]].
  - intros st' events (-> & -> & Hlen)%send_Done.
    split; [done|]. split; [done|]. split; [done|].
    intros from. by apply (own_broadcast_dropped (next_id st)).
  - intros st' events (-> & Hev & Hlen)%send_to_Done.
    split; [done|]. split; [done|]. split; [done|].
    intros from. by apply (own_targeted_dropped (next_id st)).
  - intros Hlen. rewrite send_fits by done. by eexists _, _.
  - intros Hws Hlen Hroom. unfold send_to.
    rewrite sendTargeted_closed by done. cbn [peers message_store next_id self
      last_message_id].
    rewrite decide_True by done.
    destruct (List.find _ _); [by eexists _, _|].
    rewrite decide_True by done. by eexists _, _.
Qed.

Lemma send_records_nothing_witness :
  valid_mac addr_self ∧ valid_mac addr_C
  ∧ (∃ st', send (begin addr_self) (str "hi!")
            = Done (st', [esp_now_send None (broadcast_data (str "hi!") addr_self 1)])
            ∧ message_store st' = replicate STORED_MESSAGES zero_message
            ∧ receiveData st' addr_B (broadcast_data (str "hi!") addr_self 1)
                (length (broadcast_data (str "hi!") addr_self 1)) = Done (st', [])).
Proof.
  assert (Hself : valid_mac addr_self) by literal_mac.
  assert (Hc : valid_mac addr_C) by literal_mac.
  split; [exact Hself|]. split; [exact Hc|].
  destruct (send_records_nothing (begin addr_self) (str "hi!") addr_C Hself Hc)
    as (Hsend & _).
  eexists. split; [vm_compute; reflexivity|].
  destruct (Hsend _ _ eq_refl) as (Hstore & _ & _ & Hecho).
  split; [exact Hstore | apply Hecho].
Defined.

(** * The message store under capacity pressure *)

(** With non-zero ids the store behaves as C3 says: the eleventh broadcast
    pushes out the first. *)
Lemma eleventh_evicts_first :
  ∃ st events,
    receive_all (begin addr_self) (ten_heard ++ relayed [11%Z]) = Done (st, events)
    ∧ map id (message_store st) = [11; 10; 9; 8; 7; 6; 5; 4; 3; 2]%Z.
Proof. do 2 eexists. split; [vm_compute; reflexivity | reflexivity]. Qed.

(** With non-zero ids a stored frame goes in front, the entries behind it
    keep their order, and the last entry of a store without an empty slot
    falls out. *)
Lemma stored_in_front me st from data len f st' events :
  reachable_by nonzero_id me st →
  accepted st data len f →
  message_id f ≠ 0%Z →
  receiveData st from data len = Done (st', events) →
  scanned (message_store st')
  = MessageInfo (frame_originator f) from (message_id f)
      :: take (STORED_MESSAGES - 1) (scanned (message_store st)).
Proof.
  intros Hreach (Hf & Hother & Hnew) Hnz Hrun.
  destruct (reachable_well_sized _ _ _ Hreach) as [Hws _].
  destruct (reachable_tidy _ _ Hreach) as [Htidy _].
  apply receiveData_Done in Hrun; [|done].
  destruct Hrun as [(_ & _ & [Hnone|(f' & Hf' & [Hecho|Hheld])])
                   |(f' & Hf' & _ & _ & -> & _)].
  1-3: rewrite Hf in *; simplify_eq.
  rewrite Hf in Hf'. injection Hf' as <-.
  pose proof (decode_id_range _ _ _ Hf).
  unfold with_store. cbn [message_store].
  by apply scanned_insert_front; [..|simpl; lia].
Qed.

(** C3 at its failing input.  Eleven distinct pairs are taken in, the second
    of them with message id 0.  The slot of that frame is taken for empty and
    overwritten by the next one, so the store ends up with the ten other
    frames: the pair taken in first is still there, in the last slot. *)
Theorem zero_id_spares_first_inserted :
  ∃ st events,
    receive_all (begin addr_self) (relayed [1; 0; 2; 3; 4; 5; 6; 7; 8; 9; 10]%Z)
      = Done (st, events)
    ∧ length (callbacks events) = 11
    ∧ map id (message_store st) = [10; 9; 8; 7; 6; 5; 4; 3; 2; 1]%Z
    ∧ message_store st !! 9 = Some (MessageInfo addr_A addr_B 1).
Proof.
  do 2 eexists. split; [vm_compute; reflexivity|].
  split; [reflexivity|]. split; reflexivity.
Qed.

(** * Reading the message store *)

(** The duplicate scan tests the index first and never leaves the array. *)
Lemma seen_scan_in_bounds st o mid :
  well_sized st →
  ∃ r, seen_scan STORED_MESSAGES 0 (message_store st) o mid = Done r.
Proof. intros Hws. rewrite seen_scan_closed by (done || lia). by eexists. Qed.

(** The route scan tests the index last: when every slot is in use and none
    gives a route, it reads [message_store[STORED_MESSAGES]]. *)
Lemma route_scan_past_end st message o t mid :
  well_sized st →
  length (targeted_data message o t mid) < MAX_MSG_LEN →
  Forall (fun m => (0 < id m)%Z) (message_store st) →
  (∀ m, m ∈ message_store st → usable_route (peers st) t m = false) →
  sendTargeted st message o t mid = OutOfBounds STORED_MESSAGES.
Proof.
  intros Hws Hfits Hfull Hnone. rewrite sendTargeted_closed by done.
  rewrite decide_True by done.
  rewrite (scanned_all _ Hfull), (find_nowhere _ _ Hnone).
  rewrite decide_False; [done|]. unfold well_sized in Hws. lia.
Qed.

(** C9 at its failing input: after ten broadcasts every slot holds a
    non-zero id; a targeted send to a node never heard of then reads index
    [STORED_MESSAGES] of the store. *)
Theorem route_scan_reads_past_end :
  ∃ st events,
    receive_all (begin addr_self) ten_heard = Done (st, events)
    ∧ length (message_store st) = STORED_MESSAGES
    ∧ map id (message_store st) = [10; 9; 8; 7; 6; 5; 4; 3; 2; 1]%Z
    ∧ message_store st !! STORED_MESSAGES = None
    ∧ sendTargeted st (str "yo") addr_self addr_D 1 = OutOfBounds STORED_MESSAGES.
Proof.
  do 2 eexists. split; [vm_compute; reflexivity|].
  split; [reflexivity|]. split; [reflexivity|]. split; reflexivity.
Qed.

(** * Peer discovery *)

Lemma pick_candidate_full slots i sc :
  Forall (fun p => (0 < score p)%Z) slots →
  pick_candidate slots i sc (-1) 0 = (-1)%Z.
Proof.
  intros Hfull. revert i. induction Hfull as [|p slots Hp _ IH]; intros i; [done|].
  cbn [pick_candidate].
  rewrite (proj2 (Z.ltb_lt _ _) Hp). cbn [negb].
  rewrite (proj2 (Z.ltb_ge (score p) 0)) by lia.
  rewrite andb_false_r. apply IH.
Qed.

(** Once every slot of the working set holds a positive score, no access
    point is stored any more, whatever its score. *)
Lemma full_set_closed store peer_store ap :
  Forall (fun p => (0 < score p)%Z) peer_store →
  consider store peer_store ap = peer_store.
Proof.
  intros Hfull. unfold consider. destruct (has_esp_prefix ap); [|done].
  rewrite pick_candidate_full by by apply Forall_take. done.
Qed.

(** C4 at its failing input: ten access points of score 38 fill the working
    set; an eleventh of score 98 replaces none of them. *)
Theorem stronger_candidate_replaces_nothing :
  let store := message_store (begin addr_self) in
  ap_score store (esp_ap addr_C (-30)) = 98%Z
  ∧ scan_results store weak_aps
    = map (fun n => PeerInfo (Mac 10 0 0 0 1 n) 38) [1; 2; 3; 4; 5; 6; 7; 8; 9; 10]%Z
  ∧ scan_results store (weak_aps ++ [esp_ap addr_C (-30)]) = scan_results store weak_aps.
Proof. split; [reflexivity|]. split; vm_compute; reflexivity. Qed.

Lemma elem_of_insert_inv {A} (l : list A) i x y : y ∈ <[i := x]> l → y = x ∨ y ∈ l.
Proof.
  intros (j & Hj)%list_elem_of_lookup.
  apply list_lookup_insert_Some in Hj as [(-> & -> & _)|(_ & Hj)]; [by left|].
  right. by eapply list_elem_of_lookup_2.
Qed.

Lemma scan_results_filter store arg acc :
  fold_left (consider store) arg acc
  = fold_left (consider store) (List.filter has_esp_prefix arg) acc.
Proof.
  revert acc. induction arg as [|ap arg IH]; intros acc; [done|].
  cbn [fold_left List.filter]. destruct (has_esp_prefix ap) eqn:Hp.
  - cbn [fold_left]. apply IH.
  - rewrite <- IH. f_equal. unfold consider. by rewrite Hp.
Qed.

Lemma scan_results_from_esp store arg all acc :
  (∀ ap, ap ∈ arg → ap ∈ all) →
  (∀ p, p ∈ acc → from_esp store all p) →
  ∀ p, p ∈ fold_left (consider store) arg acc → from_esp store all p.
Proof.
  revert acc. induction arg as [|ap arg IH]; intros acc Hsub Hacc; [done|].
  cbn [fold_left]. apply IH.
  - intros ap' Hin. apply Hsub. by apply list_elem_of_further.
  - intros p. unfold consider. destruct (has_esp_prefix ap) eqn:Hp; [|apply Hacc].
    destruct (0 <=? _)%Z; [|apply Hacc].
    intros [->|Hin]%elem_of_insert_inv; [|by apply Hacc].
    right. exists ap. split; [apply Hsub, list_elem_of_here | done].
Qed.

Lemma add_peers_from peer_store ps a :
  a ∈ add_peers peer_store ps →
  a ∈ ps ∨ ∃ p, p ∈ peer_store ∧ (0 < score p)%Z ∧ mac p = a.
Proof.
  unfold add_peers. revert ps.
  induction peer_store as [|p peer_store IH]; intros ps; [by left|].
  cbn [fold_left]. intros Hin. apply IH in Hin as [Hin|(q & Hq & Hs & Hm)].
  - destruct (0 <? score p)%Z eqn:Hp; [|by left].
    destruct (esp_now_is_peer_exist ps (mac p)); [by left|].
    apply elem_of_app in Hin as [Hin|Hin%list_elem_of_singleton]; [by left|].
    right. exists p. split; [apply list_elem_of_here|]. split; [by apply Z.ltb_lt | done].
  - right. exists q. split; [by apply list_elem_of_further | done].
Qed.

(** C10.  Access points whose SSID does not start with "ESP_" have no
    effect on a discovery cycle: the callback computes the same state from
    the scan list with them removed.  Every slot of the working set is
    either empty or holds the address and the score of an access point with
    the prefix, and every peer after the cycle was a peer before or is such
    an access point. *)
Theorem only_esp_prefix_considered st arg status :
  scanDoneCallback st arg status
    = scanDoneCallback st (List.filter has_esp_prefix arg) status
  ∧ (∀ p, p ∈ scan_results (message_store st) arg →
          p = zero_peer
          ∨ ∃ ap, ap ∈ arg ∧ has_esp_prefix ap = true
                  ∧ mac p = bssid ap ∧ score p = ap_score (message_store st) ap)
  ∧ (∀ a, a ∈ peers (scanDoneCallback st arg status) →
          a ∈ peers st ∨ ∃ ap, ap ∈ arg ∧ has_esp_prefix ap = true ∧ bssid ap = a).
Proof.
  assert (Hslots : ∀ p, p ∈ scan_results (message_store st) arg →
                        from_esp (message_store st) arg p).
  { apply scan_results_from_esp; [done|].
    intros p Hp. left. by apply elem_of_replicate in Hp as [-> _]. }
  split; [|split; [exact Hslots|]].
  - unfold scanDoneCallback, scan_results. destruct status; [|done..].
    by rewrite <- scan_results_filter.
  - intros a. destruct status; [|by left..].
    cbn [scanDoneCallback peers]. unfold purge_peers.
    intros [Hin _]%list_elem_of_In%filter_In. apply list_elem_of_In in Hin.
    apply add_peers_from in Hin as [Hin|(p & Hp & Hs & Hm)]; [by left|].
    right. destruct (Hslots p Hp) as [->|(ap & Hap & Hpre & Hmac & _)].
    + simpl in Hs. lia.
    + exists ap. by rewrite <- Hm, Hmac.
Qed.

(** * Further properties of the code *)

(** ** Tokens and decoded frames *)

Lemma strtok_from_tokens s tok :
  comma ∉ tok →
  Forall (fun t => t ≠ [] ∧ (comma ∉ t)) (strtok_from s tok).
Proof.
  revert tok. induction s as [|c s IH]; intros tok Htok; cbn [strtok_from].
  - destruct tok as [|x tok]; [constructor|].
    constructor; [|constructor]. split.
    + intros Hrev. apply (f_equal (@length ascii)) in Hrev.
      rewrite length_rev in Hrev. done.
    + intros Hin. apply Htok. apply list_elem_of_In, in_rev, list_elem_of_In, Hin.
  - destruct (Ascii.eqb c comma) eqn:Hc.
    + destruct tok as [|x tok]; [apply IH, not_elem_of_nil|].
      constructor; [|apply IH, not_elem_of_nil]. split.
      * intros Hrev. apply (f_equal (@length ascii)) in Hrev.
        rewrite length_rev in Hrev. done.
      * intros Hin. apply Htok. apply list_elem_of_In, in_rev, list_elem_of_In, Hin.
    + apply IH. apply not_elem_of_cons. split; [|done].
      apply Ascii.eqb_neq in Hc. congruence.
Qed.

Lemma strtok_from_chars s tok t x :
  t ∈ strtok_from s tok → x ∈ t → x ∈ s ∨ x ∈ tok.
Proof.
  revert tok. induction s as [|c s IH]; intros tok; cbn [strtok_from].
  - destruct tok as [|y tok]; [by intros ?%elem_of_nil|].
    intros ->%list_elem_of_singleton Hx. right.
    apply list_elem_of_In, in_rev, list_elem_of_In, Hx.
  - destruct (Ascii.eqb c comma).
    + destruct tok as [|y tok].
      * intros Ht Hx. destruct (IH _ Ht Hx) as [?|?%elem_of_nil]; [|done].
        left. by apply list_elem_of_further.
      * intros [->|Ht]%elem_of_cons Hx.
        -- right. apply list_elem_of_In, in_rev, list_elem_of_In, Hx.
        -- destruct (IH _ Ht Hx) as [?|?%elem_of_nil]; [|done].
           left. by apply list_elem_of_further.
    + intros Ht Hx. destruct (IH _ Ht Hx) as [?|[->|?]%elem_of_cons].
      * left. by apply list_elem_of_further.
      * left. apply list_elem_of_here.
      * by right.
Qed.

(** Every token costs its characters and, but for the last, a comma. *)
Lemma strtok_from_length s tok :
  sum_list (map (fun t => S (length t)) (strtok_from s tok)) ≤ S (length s + length tok).
Proof.
  revert tok. induction s as [|c s IH]; intros tok; cbn [strtok_from].
  - destruct tok as [|y tok]; [simpl; lia|].
    cbn [map]. rewrite length_rev. simpl. lia.
  - destruct (Ascii.eqb c comma).
    + destruct tok as [|y tok].
      * specialize (IH []). simpl in *. lia.
      * specialize (IH []). cbn [map]. rewrite length_rev. simpl in *. lia.
    + specialize (IH (c :: tok)). simpl in *. lia.
Qed.

Lemma received_message_no_nul data len : NUL ∉ received_message data len.
Proof.
  unfold received_message. intros (i & Hi & _)%elem_of_take.
  apply list_elem_of_lookup_2 in Hi. by apply c_str_no_nul in Hi.
Qed.

Lemma received_message_length data len : length (received_message data len) ≤ len.
Proof. unfold received_message. rewrite length_take. lia. Qed.

(** The fields of a decoded frame. *)
Lemma decode_fields data len f :
  decode data len = Done (Some f) →
  (0 ≤ message_type f < 256)%Z
  ∧ valid_mac (frame_originator f)
  ∧ valid_mac (target f)
  ∧ (0 ≤ message_id f < 65536)%Z
  ∧ message f ≠ []
  ∧ (comma ∉ message f)
  ∧ (NUL ∉ message f)
  ∧ length (message f) + 28 ≤ len
  ∧ len ≤ MAX_MSG_LEN.
Proof.
  intros (Hlen & _ & Hf)%decode_Some.
  pose proof (strtok_from_tokens (received_message data len) [] (not_elem_of_nil _))
    as Hplain.
  pose proof (strtok_from_length (received_message data len) []) as Hsum.
  pose proof (received_message_length data len) as Hrl.
  assert (Hnul : Forall (fun t => NUL ∉ t) (strtok (received_message data len))).
  { apply Forall_forall. intros t Ht Hx.
    destruct (strtok_from_chars _ _ _ _ Ht Hx) as [H|H].
    - by apply received_message_no_nul in H.
    - by apply elem_of_nil in H. }
  fold (strtok (received_message data len)) in Hplain, Hsum.
  assert (Hlong : Forall (fun t : list ascii => 1 ≤ length t)
                    (strtok (received_message data len))).
  { eapply Forall_impl; [exact Hplain|]. intros [|? ?] [? _]; simpl; [done|lia]. }
  destruct (strtok (received_message data len)) as [|t0 ts]; [done|].
  do 14 (destruct ts as [|? ts]; [done|]). destruct ts; [|done].
  injection Hf as <-. cbn [message_type frame_originator target message_id message].
  repeat match goal with
         | H : Forall _ (_ :: _) |- _ => apply Forall_cons in H as [? H]
         end.
  assert (Hbyte : ∀ z, (0 ≤ uint8_t z < 256)%Z)
    by (intros z; apply Z.mod_pos_bound; lia).
  split; [apply Hbyte|]. split; [unfold valid_mac; cbn; auto 10|].
  split; [unfold valid_mac; cbn; auto 10|].
  split; [apply Z.mod_pos_bound; lia|].
  destruct_and!. split; [done|]. split; [done|]. split; [done|].
  simpl in Hsum. split; lia.
Qed.

(** X1.  Whatever bytes arrive, a frame that [receiveData] goes on with has
    its type and address bytes in 0-255 and its id in 0-65535, and its
    payload is a token: not empty, without comma or NUL, and of at most
    [len - 28] characters. *)
Theorem decoded_frame_well_formed data len f :
  decode data len = Done (Some f) →
  (0 ≤ message_type f < 256)%Z
  ∧ valid_mac (frame_originator f)
  ∧ valid_mac (target f)
  ∧ (0 ≤ message_id f < 65536)%Z
  ∧ message f ≠ []
  ∧ (comma ∉ message f)
  ∧ (NUL ∉ message f)
  ∧ length (message f) + 28 ≤ len
  ∧ len ≤ MAX_MSG_LEN.
Proof.
  intros Hf.
  destruct (decode_fields _ _ _ Hf) as (Hty & Ho & Ht & Hid & Hne & Hc & Hz & Hl & Hm).
  split; [exact Hty|]. split; [exact Ho|]. split; [exact Ht|]. split; [exact Hid|].
  split; [exact Hne|]. split; [exact Hc|]. split; [exact Hz|].
  split; [exact Hl | exact Hm].
Qed.

Lemma decoded_frame_well_formed_witness :
  decode (hi 1) (length (hi 1)) = Done (Some (hi_frame 1))
  ∧ message (hi_frame 1) ≠ []
  ∧ length (message (hi_frame 1)) + 28 ≤ length (hi 1).
Proof.
  assert (Hf : decode (hi 1) (length (hi 1)) = Done (Some (hi_frame 1)))
    by (vm_compute; reflexivity).
  split; [exact Hf|].
  destruct (decoded_frame_well_formed _ _ _ Hf) as (_ & _ & _ & _ & Hne & _ & _ & Hl & _).
  split; [exact Hne | exact Hl].
Defined.

(** ** The length of a frame *)

Lemma digits_rev_length fuel n k :
  (0 ≤ n < 10 ^ Z.of_nat (S k))%Z → length (digits_rev fuel n) ≤ S k.
Proof.
  revert n k. induction fuel as [|fuel IH]; intros n k Hn; cbn [digits_rev length]; [lia|].
  destruct (n / 10 =? 0)%Z eqn:Hq; [cbn; lia|].
  apply Z.eqb_neq in Hq.
  destruct k as [|k].
  - exfalso. apply Hq. apply Z.div_small. change (10 ^ Z.of_nat 1)%Z with 10%Z in Hn. lia.
  - enough (length (digits_rev fuel (n / 10)) ≤ S k) by lia.
    apply IH. rewrite (Nat2Z.inj_succ (S k)), Z.pow_succ_r in Hn by lia.
    split; [apply Z.div_pos; lia|]. apply Z.div_lt_upper_bound; lia.
Qed.

Lemma utoa_length n k :
  (0 ≤ n < 10 ^ Z.of_nat (S k))%Z → 1 ≤ length (utoa n) ≤ S k.
Proof.
  intros Hn. unfold utoa. rewrite length_map, length_rev. split.
  - cbn [digits_rev length]. lia.
  - by apply digits_rev_length.
Qed.

Lemma utoa_length_byte b : (0 ≤ b < 256)%Z → 1 ≤ length (utoa b) ≤ 3.
Proof. intros Hb. apply utoa_length. change (10 ^ Z.of_nat 3)%Z with 1000%Z. lia. Qed.

Lemma utoa_length_id n : (0 ≤ n < 65536)%Z → 1 ≤ length (utoa n) ≤ 5.
Proof. intros Hn. apply utoa_length. change (10 ^ Z.of_nat 5)%Z with 100000%Z. lia. Qed.

Lemma line_length (kind : ascii) o t mid msg :
  length (comma_separated
            ([ [kind];
               utoa (byte0 o); utoa (byte1 o); utoa (byte2 o);
               utoa (byte3 o); utoa (byte4 o); utoa (byte5 o);
               utoa (byte0 t); utoa (byte1 t); utoa (byte2 t);
               utoa (byte3 t); utoa (byte4 t); utoa (byte5 t);
               utoa mid ] ++ [c_str msg]))
  = 15
    + length (utoa (byte0 o)) + length (utoa (byte1 o)) + length (utoa (byte2 o))
    + length (utoa (byte3 o)) + length (utoa (byte4 o)) + length (utoa (byte5 o))
    + length (utoa (byte0 t)) + length (utoa (byte1 t)) + length (utoa (byte2 t))
    + length (utoa (byte3 t)) + length (utoa (byte4 t)) + length (utoa (byte5 t))
    + length (utoa mid) + length (c_str msg).
Proof.
  cbn [app comma_separated]. repeat (cbn [length]; rewrite length_app).
  cbn [length]. lia.
Qed.

Lemma broadcast_data_short message o mid :
  valid_mac o → (0 ≤ mid < 65536)%Z →
  length (broadcast_data message o mid) ≤ 44 + length (c_str message).
Proof.
  intros (Ho0 & Ho1 & Ho2 & Ho3 & Ho4 & Ho5) Hmid.
  rewrite broadcast_data_line, line_length.
  change (length (utoa (byte0 zero_mac))) with 1.
  change (length (utoa (byte1 zero_mac))) with 1.
  change (length (utoa (byte2 zero_mac))) with 1.
  change (length (utoa (byte3 zero_mac))) with 1.
  change (length (utoa (byte4 zero_mac))) with 1.
  change (length (utoa (byte5 zero_mac))) with 1.
  pose proof (utoa_length_byte _ Ho0). pose proof (utoa_length_byte _ Ho1).
  pose proof (utoa_length_byte _ Ho2). pose proof (utoa_length_byte _ Ho3).
  pose proof (utoa_length_byte _ Ho4). pose proof (utoa_length_byte _ Ho5).
  pose proof (utoa_length_id _ Hmid). lia.
Qed.

(** X2.  The table of NowMesh.h: a frame is 28 to 44 characters (broadcast)
    or 28 to 56 characters (targeted) plus one per character of the message.
    So a broadcast of up to 21 characters and a targeted message of up to 9
    always pass the length check of the receiver; with up to 20 and up to 8
    characters the line is shorter than [MAX_MSG_LEN], the size of the array
    it is written into, and so leaves room for its terminator. *)
Theorem frame_length_bounds message o t mid :
  valid_mac o → valid_mac t → (0 ≤ mid < 65536)%Z →
  let n := length (c_str message) in
  (28 + n ≤ length (broadcast_data message o mid) ≤ 44 + n)
  ∧ (28 + n ≤ length (targeted_data message o t mid) ≤ 56 + n)
  ∧ (n ≤ 21 → length (broadcast_data message o mid) ≤ MAX_MSG_LEN)
  ∧ (n ≤ 9 → length (targeted_data message o t mid) ≤ MAX_MSG_LEN)
  ∧ (n ≤ 20 → length (broadcast_data message o mid) < MAX_MSG_LEN)
  ∧ (n ≤ 8 → length (targeted_data message o t mid) < MAX_MSG_LEN).
Proof.
  intros (Ho0 & Ho1 & Ho2 & Ho3 & Ho4 & Ho5) (Ht0 & Ht1 & Ht2 & Ht3 & Ht4 & Ht5) Hmid n.
  rewrite broadcast_data_line, targeted_data_line, !line_length.
  change (length (utoa (byte0 zero_mac))) with 1.
  change (length (utoa (byte1 zero_mac))) with 1.
  change (length (utoa (byte2 zero_mac))) with 1.
  change (length (utoa (byte3 zero_mac))) with 1.
  change (length (utoa (byte4 zero_mac))) with 1.
  change (length (utoa (byte5 zero_mac))) with 1.
  pose proof (utoa_length_byte _ Ho0). pose proof (utoa_length_byte _ Ho1).
  pose proof (utoa_length_byte _ Ho2). pose proof (utoa_length_byte _ Ho3).
  pose proof (utoa_length_byte _ Ho4). pose proof (utoa_length_byte _ Ho5).
  pose proof (utoa_length_byte _ Ht0). pose proof (utoa_length_byte _ Ht1).
  pose proof (utoa_length_byte _ Ht2). pose proof (utoa_length_byte _ Ht3).
  pose proof (utoa_length_byte _ Ht4). pose proof (utoa_length_byte _ Ht5).
  pose proof (utoa_length_id _ Hmid).
  fold n. unfold MAX_MSG_LEN. lia.
Qed.

Lemma frame_length_bounds_witness :
  valid_mac addr_A ∧ valid_mac addr_C
  ∧ length (broadcast_data (str "hi!") addr_A 1) ≤ MAX_MSG_LEN.
Proof.
  assert (Ha : valid_mac addr_A) by literal_mac.
  assert (Hc : valid_mac addr_C) by literal_mac.
  split; [exact Ha|]. split; [exact Hc|].
  destruct (frame_length_bounds (str "hi!") addr_A addr_C 1 Ha Hc ltac:(lia))
    as (_ & _ & Hfits & _).
  apply Hfits. vm_compute. lia.
Defined.

(** ** Frames on their way through the mesh *)

Lemma sendBroadcast_fits message o mid :
  length (broadcast_data message o mid) < MAX_MSG_LEN →
  sendBroadcast message o mid = Done (esp_now_send None (broadcast_data message o mid)).
Proof.
  intros Hlen. rewrite sendBroadcast_closed, decide_True by done.
  unfold sendMessage. by rewrite c_str_id by apply broadcast_data_no_nul.
Qed.

Lemma sendMessage_targeted hop message o t mid :
  sendMessage hop (targeted_data message o t mid)
  = esp_now_send hop (targeted_data message o t mid).
Proof. unfold sendMessage. by rewrite c_str_id by apply targeted_data_no_nul. Qed.

(** X3.  What a node resends decodes, at the next hop, to what the node
    decoded itself: same originator, id and payload, the type of the line
    sent, and for a broadcast an all-zero target.  The one condition is that
    the line, which is written afresh from the parsed values, is shorter
    than [MAX_MSG_LEN], so that it fits [data] here and [received_buffer]
    there. *)
Theorem resent_frame_decodes_alike data len f :
  decode data len = Done (Some f) →
  let b := broadcast_data (message f) (frame_originator f) (message_id f) in
  let t := targeted_data (message f) (frame_originator f) (target f) (message_id f) in
  (length b < MAX_MSG_LEN →
   sendBroadcast (message f) (frame_originator f) (message_id f)
   = Done (esp_now_send None b)
   ∧ decode b (length b)
     = Done (Some (Frame 1 (frame_originator f) zero_mac (message_id f) (message f))))
  ∧ (length t < MAX_MSG_LEN →
     (∀ st e,
        sendTargeted st (message f) (frame_originator f) (target f) (message_id f)
        = Done e →
        ∃ hop, e = esp_now_send hop t)
     ∧ decode t (length t)
       = Done (Some (Frame 2 (frame_originator f) (target f) (message_id f) (message f)))).
Proof.
  intros Hf b t.
  destruct (decode_fields _ _ _ Hf) as (_ & Ho & Ht & Hid & Hne & Hc & Hz & _).
  split; intros Hlen; split.
  - by apply sendBroadcast_fits.
  - unfold b in *. rewrite decode_broadcast_data by done.
    by rewrite c_str_id, strtok_single by done.
  - intros st e He. by apply sendTargeted_Done in He as [? _].
  - unfold t in *. rewrite decode_targeted_data by done.
    by rewrite c_str_id, strtok_single by done.
Qed.

Lemma resent_frame_decodes_alike_witness :
  decode targeted_at_C (length targeted_at_C)
  = Done (Some (Frame 2 addr_A addr_C 1 (str "hi!")))
  ∧ decode (broadcast_data (str "hi!") addr_A 1) (length (broadcast_data (str "hi!") addr_A 1))
    = Done (Some (Frame 1 addr_A zero_mac 1 (str "hi!"))).
Proof.
  assert (Hf : decode targeted_at_C (length targeted_at_C)
               = Done (Some (Frame 2 addr_A addr_C 1 (str "hi!"))))
    by (vm_compute; reflexivity).
  split; [exact Hf|].
  destruct (resent_frame_decodes_alike _ _ _ Hf) as [Hb _].
  apply Hb. vm_compute. lia.
Defined.

(** X4.  A broadcast from [send] at one node, its line shorter than
    [MAX_MSG_LEN], received for the first time by another node (whose
    address is not all-zero), is handed to the callback with the payload
    and the originator the sender gave, and is resent to all peers as the
    very same line; the receiver records the originator, the id and the
    neighbour it came from in slot 0 and keeps its peers. *)
Theorem broadcast_delivered_and_relayed st_a st_b from text :
  valid_mac (self st_a) →
  well_sized st_b →
  self st_b ≠ self st_a →
  self st_b ≠ zero_mac →
  text ≠ [] → comma ∉ text → NUL ∉ text →
  let mid := uint16_t (last_message_id st_a + 1) in
  let line := broadcast_data text (self st_a) mid in
  length line < MAX_MSG_LEN →
  ¬ held (message_store st_b) (self st_a) mid →
  send st_a text = Done (next_id st_a, [esp_now_send None line])
  ∧ ∃ st_b',
      receiveData st_b from line (length line)
      = Done (st_b', [esp_now_send None line; receiveCallback text true (self st_a)])
      ∧ message_store st_b' !! 0 = Some (MessageInfo (self st_a) from mid)
      ∧ peers st_b' = peers st_b.
Proof.
  intros Hmac Hws Hother Hzero Hne Hc Hz mid line Hlen Hnew.
  assert (Hmid : (0 ≤ mid < 65536)%Z) by (apply Z.mod_pos_bound; lia).
  split; [by apply send_fits|].
  assert (Hf : decode line (length line)
               = Done (Some (Frame 1 (self st_a) zero_mac mid text))).
  { unfold line in *. rewrite decode_broadcast_data by done.
    by rewrite c_str_id, strtok_single by done. }
  eexists. split.
  { rewrite (receive_fresh_frame _ _ _ _ _ Hws Hf) by (cbn; congruence || done).
    cbn zeta. unfold dispatch.
    cbn [target message_type frame_originator message_id message with_store self].
    rewrite (proj2 (memcmp6_ne zero_mac (self st_b))) by congruence.
    change (1 =? 1)%Z with true. cbn iota.
    rewrite sendBroadcast_fits by done. cbn [mbind outcome_bind app]. done. }
  split; reflexivity.
Qed.

Lemma broadcast_delivered_and_relayed_witness :
  ∃ st_b',
    receiveData (begin addr_self) addr_A (broadcast_data (str "hi!") addr_A 1)
      (length (broadcast_data (str "hi!") addr_A 1))
    = Done (st_b', [esp_now_send None (broadcast_data (str "hi!") addr_A 1);
                    receiveCallback (str "hi!") true addr_A]).
Proof.
  destruct (broadcast_delivered_and_relayed (begin addr_A) (begin addr_self) addr_A
              (str "hi!")) as (_ & st_b' & Hrun & _).
  - literal_mac.
  - reflexivity.
  - discriminate.
  - discriminate.
  - discriminate.
  - literal_not_elem.
  - literal_not_elem.
  - vm_compute. lia.
  - intros (m & Hm & _). vm_compute in Hm. by apply elem_of_nil in Hm.
  - exists st_b'. exact Hrun.
Defined.

(** X5.  A targeted frame from [send_to], its line shorter than
    [MAX_MSG_LEN], that reaches the node it is addressed to is handed to
    the callback (with flag [false], as the code has it) and goes no
    further: nothing is sent. *)
Theorem targeted_frame_ends_at_target st_a st_b from text :
  valid_mac (self st_a) →
  valid_mac (self st_b) →
  well_sized st_b →
  self st_b ≠ self st_a →
  text ≠ [] → comma ∉ text → NUL ∉ text →
  let mid := uint16_t (last_message_id st_a + 1) in
  let line := targeted_data text (self st_a) (self st_b) mid in
  length line < MAX_MSG_LEN →
  ¬ held (message_store st_b) (self st_a) mid →
  (∀ st_a' events, send_to st_a text (self st_b) = Done (st_a', events) →
                   ∃ hop, events = [esp_now_send hop line])
  ∧ ∃ st_b',
      receiveData st_b from line (length line)
      = Done (st_b', [receiveCallback text false (self st_a)])
      ∧ message_store st_b' !! 0 = Some (MessageInfo (self st_a) from mid).
Proof.
  intros Hmac Hmacb Hws Hother Hne Hc Hz mid line Hlen Hnew.
  assert (Hmid : (0 ≤ mid < 65536)%Z) by (apply Z.mod_pos_bound; lia).
  split.
  { intros st_a' events Hsend. by apply send_to_Done in Hsend as (_ & ? & _). }
  assert (Hf : decode line (length line)
               = Done (Some (Frame 2 (self st_a) (self st_b) mid text))).
  { unfold line in *. rewrite decode_targeted_data by done.
    by rewrite c_str_id, strtok_single by done. }
  eexists. split.
  { rewrite (receive_fresh_frame _ _ _ _ _ Hws Hf) by (cbn; congruence || done).
    cbn zeta. unfold dispatch.
    cbn [target message_type frame_originator message_id message with_store self].
    by rewrite memcmp6_refl. }
  reflexivity.
Qed.

Lemma targeted_frame_ends_at_target_witness :
  ∃ st_b',
    receiveData (begin addr_self) addr_B (targeted_data (str "hi!") addr_A addr_self 1)
      (length (targeted_data (str "hi!") addr_A addr_self 1))
    = Done (st_b', [receiveCallback (str "hi!") false addr_A]).
Proof.
  destruct (targeted_frame_ends_at_target (begin addr_A) (begin addr_self) addr_B
              (str "hi!")) as (_ & st_b' & Hrun & _).
  - literal_mac.
  - literal_mac.
  - reflexivity.
  - discriminate.
  - discriminate.
  - literal_not_elem.
  - literal_not_elem.
  - vm_compute. lia.
  - intros (m & Hm & _). vm_compute in Hm. by apply elem_of_nil in Hm.
  - exists st_b'. exact Hrun.
Defined.

(** ** What a receipt does to the node *)

Lemma scanned_stop store m :
  store !! length (scanned store) = Some m → (id m ≤ 0)%Z.
Proof.
  induction store as [|x store IH]; [done|]. cbn [scanned].
  destruct (0 <? id x)%Z eqn:E.
  - cbn [length]. apply IH.
  - cbn [length]. intros [= <-]. by apply Z.ltb_ge.
Qed.

Lemma insert_front_slots store new :
  length store = STORED_MESSAGES →
  let k := Nat.min (length (scanned store)) (STORED_MESSAGES - 1) in
  insert_front store new !! 0 = Some new
  ∧ (∀ i, i < k → insert_front store new !! S i = store !! i)
  ∧ (∀ i, k < i → insert_front store new !! i = store !! i).
Proof.
  intros Hlen k. pose proof (scanned_length store) as Hn.
  unfold insert_front.
  assert ((if decide (length (scanned store) = STORED_MESSAGES)
           then length (scanned store) - 1 else length (scanned store)) = k) as ->.
  { unfold k. case_decide; unfold STORED_MESSAGES in *; lia. }
  assert (Hk : k < length store) by (unfold k, STORED_MESSAGES in *; lia).
  split; [done|]. split.
  - intros i Hi. rewrite lookup_cons.
    rewrite lookup_app_l by (rewrite length_take; lia).
    by rewrite lookup_take_lt.
  - intros [|i] Hi; [lia|]. rewrite lookup_cons.
    rewrite lookup_app_r by (rewrite length_take; lia).
    rewrite length_take, lookup_drop. f_equal. lia.
Qed.

(** X6.  An accepted frame changes nothing of the node but the message
    store, and of the store exactly this: the new entry (originator,
    neighbour it came from, id) is in slot 0, the entries in front of slot
    [k] have moved back by one, the slots behind [k] are untouched, where [k]
    is the first slot whose id is not positive, or the last slot when there
    is none.  So the one entry lost is that of slot [k]: an unused slot, or
    the oldest entry of a full store. *)
Theorem accepted_frame_overwrites_one_slot st from data len f st' events :
  well_sized st →
  accepted st data len f →
  receiveData st from data len = Done (st', events) →
  let store := message_store st in
  let k := Nat.min (length (scanned store)) (STORED_MESSAGES - 1) in
  self st' = self st ∧ peers st' = peers st ∧ last_message_id st' = last_message_id st
  ∧ length (message_store st') = STORED_MESSAGES
  ∧ message_store st' !! 0 = Some (MessageInfo (frame_originator f) from (message_id f))
  ∧ (∀ i, i < k → message_store st' !! S i = store !! i)
  ∧ (∀ i, k < i → message_store st' !! i = store !! i)
  ∧ (∀ i m, i < k → store !! i = Some m → (0 < id m)%Z)
  ∧ (∀ m, k < STORED_MESSAGES - 1 → store !! k = Some m → (id m ≤ 0)%Z).
Proof.
  intros Hws (Hf & Hother & Hnew) Hrun store k.
  apply receiveData_Done in Hrun; [|done].
  destruct Hrun as [(_ & _ & [Hnone|(g & Hg & Hdrop)])|(g & Hg & _ & _ & -> & _)].
  - congruence.
  - rewrite Hf in Hg. injection Hg as <-. by destruct Hdrop.
  - rewrite Hf in Hg. injection Hg as <-.
    destruct (insert_front_slots store
                (MessageInfo (frame_originator f) from (message_id f)) Hws)
      as (H0 & Hfront & Hback).
    cbn [with_store self peers last_message_id message_store].
    repeat split; try done.
    + by apply length_insert_front.
    + intros i m Hi Hm. apply (scanned_positive store).
      rewrite <- scanned_prefix. apply list_elem_of_lookup. exists i.
      rewrite lookup_take_lt by (unfold k in Hi; lia). done.
    + intros m Hk Hm. apply (scanned_stop store).
      replace (length (scanned store)) with k; [done|]. unfold k in *. lia.
Qed.

Lemma accepted_frame_overwrites_one_slot_witness :
  ∃ st', receiveData (begin addr_self) addr_B (hi 1) (length (hi 1))
         = Done (st', [esp_now_send None (hi 1); receiveCallback (str "hi!") true addr_A])
         ∧ message_store st' !! 0 = Some (MessageInfo addr_A addr_B 1)
         ∧ peers st' = [].
Proof.
  eexists. split; [vm_compute; reflexivity|].
  refine ((fun H => conj (proj1 (proj2 (proj2 (proj2 (proj2 H))))) (proj1 (proj2 H)))
            (accepted_frame_overwrites_one_slot (begin addr_self) addr_B (hi 1)
               (length (hi 1)) (Frame 1 addr_A zero_mac 1 (str "hi!")) _ _ _ _ _)).
  - reflexivity.
  - split; [vm_compute; reflexivity|]. split; [discriminate|].
    intros (m & Hm & _). vm_compute in Hm. by apply elem_of_nil in Hm.
  - vm_compute. reflexivity.
Defined.

Lemma decode_overrun data len i :
  decode data len = OutOfBounds i
  ↔ i = MAX_MSG_LEN ∧ len ≤ MAX_MSG_LEN
    ∧ MAX_MSG_LEN ≤ length (received_message data len).
Proof.
  rewrite decode_tokens. case_decide; [split; [done|lia]|].
  case_decide; [split; [done|lia]|]. split.
  - intros [= <-]. lia.
  - by intros (-> & _).
Qed.

Lemma dispatch_overrun st f i :
  well_sized st →
  dispatch st f = OutOfBounds i
  ↔ target f ≠ self st
    ∧ ((i = MAX_MSG_LEN ∧ (message_type f = 1 ∨ message_type f = 2)%Z
        ∧ MAX_MSG_LEN ≤ length (encode f))
       ∨ (i = STORED_MESSAGES ∧ message_type f = 2%Z
          ∧ length (encode f) < MAX_MSG_LEN
          ∧ Forall (fun m => (0 < id m)%Z) (message_store st)
          ∧ ∀ m, m ∈ message_store st → usable_route (peers st) (target f) m = false)).
Proof.
  intros Hws. unfold dispatch, encode.
  destruct (memcmp6 (target f) (self st)) eqn:Ht.
  { apply memcmp6_eq in Ht. split; [done|]. by intros [? _]. }
  apply memcmp6_ne in Ht.
  destruct (message_type f =? 1)%Z eqn:H1.
  { apply Z.eqb_eq in H1. rewrite sendBroadcast_closed.
    case_decide; cbn [mbind outcome_bind].
    - split; [done|]. intros (_ & [(_ & _ & ?)|(_ & ? & _)]); lia.
    - split.
      + intros [= <-]. split; [done|]. left. split; [done|]. split; [by left | lia].
      + intros (_ & [(-> & _)|(_ & ? & _)]); [done | lia]. }
  destruct (message_type f =? 2)%Z eqn:H2; cycle 1.
  { apply Z.eqb_neq in H1, H2. split; [done|].
    intros (_ & [(_ & [?|?] & _)|(_ & ? & _)]); lia. }
  apply Z.eqb_eq in H2.
  rewrite sendTargeted_closed by done.
  pose proof (scanned_length (message_store st)) as Hn.
  pose proof (scanned_prefix (message_store st)) as Hpre.
  pose proof (scanned_Forall (message_store st)) as Hpos.
  unfold well_sized in Hws.
  case_decide as Hfits; cycle 1.
  { split.
    - intros [= <-]. split; [done|]. left. split; [done|]. split; [by right | lia].
    - intros (_ & [(-> & _)|(_ & _ & ? & _)]); [done | lia]. }
  destruct (List.find _ _) as [m|] eqn:Hfind; cbn [mbind outcome_bind].
  { split; [done|]. intros (_ & [(_ & _ & ?)|(_ & _ & _ & Hfull & Hnone)]); [lia|].
    apply find_some in Hfind as [Hin Hm]. apply list_elem_of_In in Hin.
    rewrite (scanned_all _ Hfull) in Hin. by rewrite Hnone in Hm. }
  case_decide as Hroom; cbn [mbind outcome_bind].
  { split; [done|]. intros (_ & [(_ & _ & ?)|(_ & _ & _ & Hfull & _)]); [lia|].
    rewrite (scanned_all _ Hfull) in Hroom. lia. }
  assert (Hall : scanned (message_store st) = message_store st).
  { rewrite <- Hpre. apply take_ge. lia. }
  split.
  - intros [= <-]. split; [done|]. right. split; [done|]. split; [done|].
    split; [done|]. split; [by rewrite <- Hall|].
    intros m Hin. rewrite <- Hall in Hin. apply list_elem_of_In in Hin.
    by apply (find_none _ _ Hfind).
  - intros (_ & [(_ & _ & ?)|(-> & _)]); [lia | done].
Qed.

(** X7.  A receipt never exhausts a scan budget, and it fails to complete
    in exactly three situations, each an access past the end of an array:
    the received text has [MAX_MSG_LEN] characters and is copied into
    [received_buffer]; or an accepted frame of type 1 or 2 for another node
    is rewritten into a line of [MAX_MSG_LEN] characters or more, which
    overruns [data]; or an accepted frame of type 2 for another node, its
    line fitting, finds every slot of the store holding a positive id and no
    entry giving a usable route, so that the route scan reads
    [message_store[STORED_MESSAGES]].  Every other receipt completes. *)
Theorem receipt_fails_only_past_an_array st from data len :
  well_sized st →
  receiveData st from data len ≠ OutOfFuel
  ∧ ∀ i, receiveData st from data len = OutOfBounds i
         ↔ (i = MAX_MSG_LEN ∧ len ≤ MAX_MSG_LEN
            ∧ MAX_MSG_LEN ≤ length (received_message data len))
           ∨ ∃ f, accepted st data len f
                  ∧ target f ≠ self st
                  ∧ ((i = MAX_MSG_LEN ∧ (message_type f = 1 ∨ message_type f = 2)%Z
                      ∧ MAX_MSG_LEN ≤ length (encode f))
                     ∨ (i = STORED_MESSAGES ∧ message_type f = 2%Z
                        ∧ length (encode f) < MAX_MSG_LEN
                        ∧ let store' := insert_front (message_store st)
                                          (MessageInfo (frame_originator f) from
                                             (message_id f)) in
                          Forall (fun m => (0 < id m)%Z) store'
                          ∧ ∀ m, m ∈ store' →
                                 usable_route (peers st) (target f) m = false)).
Proof.
  intros Hws. split.
  { destruct (receiveData_outcome st from data len Hws) as [[r ->]|[->| ->]]; done. }
  intros i. unfold accepted.
  destruct (decode data len) as [[f|]|j|] eqn:Hdec.
  - (* a frame *)
    pose proof (decode_Some _ _ _ Hdec) as (_ & Hfits & _).
    rewrite receiveData_closed, Hdec by done. cbn [mbind outcome_bind].
    destruct (memcmp6 (frame_originator f) (self st)) eqn:Ho.
    { apply memcmp6_eq in Ho. split; [done|].
      intros [(_ & _ & ?)|(g & ([= <-] & Hother & _) & _)]; [lia | done]. }
    destruct (existsb _ _) eqn:Hseen.
    { split; [done|].
      intros [(_ & _ & ?)|(g & ([= <-] & _ & Hnew) & _)]; [lia|].
      apply not_held_iff in Hnew. congruence. }
    cbn zeta. set (store' := insert_front _ _).
    assert (Hws' : well_sized (with_store st store')) by by apply length_insert_front.
    pose proof (dispatch_overrun (with_store st store') f i Hws') as Hd.
    cbn [with_store self message_store peers] in Hd.
    destruct (dispatch (with_store st store') f) as [events|k|]; cbn [mbind outcome_bind].
    + split; [done|].
      intros [(_ & _ & ?)|(g & ([= <-] & _ & _) & Ht & Hcase)]; [lia|].
      by pose proof (proj2 Hd (conj Ht Hcase)).
    + split.
      * intros [= ->]. right. exists f. destruct (proj1 Hd eq_refl) as [Ht Hcase].
        split; [|done]. split; [done|].
        split; [by apply memcmp6_ne | by apply not_held_iff].
      * intros [(_ & _ & ?)|(g & ([= <-] & _ & _) & Ht & Hcase)]; [lia|].
        pose proof (proj2 Hd (conj Ht Hcase)) as [= ->]. done.
    + split; [done|].
      intros [(_ & _ & ?)|(g & ([= <-] & _ & _) & Ht & Hcase)]; [lia|].
      by pose proof (proj2 Hd (conj Ht Hcase)).
  - (* tossed out *)
    rewrite (undecodable_dropped _ _ _ _ Hdec). split; [done|].
    intros [Hover|(g & (? & _) & _)]; [|done].
    apply decode_overrun in Hover. congruence.
  - (* the copy overruns the receive buffer *)
    unfold receiveData. rewrite Hdec. cbn [mbind outcome_bind].
    apply decode_overrun in Hdec as (-> & Hlen & Hlong). split.
    + intros [= <-]. by left.
    + intros [(-> & _)|(g & (? & _) & _)]; done.
  - rewrite decode_tokens in Hdec. by repeat case_decide.
Qed.

Lemma receipt_fails_only_past_an_array_witness :
  receiveData full_store addr_B (targeted_data (str "hi!") addr_C addr_D 1)
    (length (targeted_data (str "hi!") addr_C addr_D 1))
  = OutOfBounds STORED_MESSAGES.
Proof.
  apply (receipt_fails_only_past_an_array full_store addr_B
           (targeted_data (str "hi!") addr_C addr_D 1)
           (length (targeted_data (str "hi!") addr_C addr_D 1))).
  - reflexivity.
  - right. exists (Frame 2 addr_C addr_D 1 (str "hi!")).
    split; [|split; [discriminate|]].
    + split; [vm_compute; reflexivity|]. split; [discriminate|].
      intros (m & Hm & Ho & _). vm_compute in Hm.
      repeat (apply elem_of_cons in Hm as [->|Hm]; [discriminate Ho|]).
      by apply elem_of_nil in Hm.
    + right. split; [reflexivity|]. split; [reflexivity|].
      split; [vm_compute; lia|]. cbn zeta. split.
      * vm_compute. repeat (constructor; [reflexivity|]). constructor.
      * intros m Hm. vm_compute in Hm.
        repeat (apply elem_of_cons in Hm as [->|Hm]; [reflexivity|]).
        by apply elem_of_nil in Hm.
Defined.

(** ** Replies and the message counter *)

(** X8.  The way back: once a frame with a non-zero id from originator [o]
    has been accepted from neighbour [from], and [from] is an active peer, a
    targeted send to [o], and likewise one to [from] itself, whose line is
    shorter than [MAX_MSG_LEN], is unicast to [from], whatever else the
    store holds. *)
Theorem reply_goes_back_through_the_sender st from data len f st' events text t :
  well_sized st →
  accepted st data len f →
  message_id f ≠ 0%Z →
  receiveData st from data len = Done (st', events) →
  from ∈ peers st →
  t = frame_originator f ∨ t = from →
  length (targeted_data text (self st) t (uint16_t (last_message_id st + 1)))
  < MAX_MSG_LEN →
  send_to st' text t
  = Done (next_id st',
          [esp_now_send (Some from)
             (targeted_data text (self st) t (uint16_t (last_message_id st + 1)))]).
Proof.
  intros Hws (Hf & Hother & Hnew) Hnz Hrun Hpeer Ht Hfits.
  pose proof (decode_id_range _ _ _ Hf) as Hrange.
  apply receiveData_Done in Hrun; [|done].
  destruct Hrun as [(_ & _ & [Hnone|(g & Hg & Hdrop)])|(g & Hg & _ & _ & -> & _)].
  - congruence.
  - rewrite Hf in Hg. injection Hg as <-. by destruct Hdrop.
  - rewrite Hf in Hg. injection Hg as <-.
    unfold send_to. rewrite sendTargeted_closed by by apply length_insert_front.
    cbn [next_id with_store self peers message_store last_message_id].
    rewrite decide_True by done.
    unfold insert_front. cbn [scanned id].
    rewrite (proj2 (Z.ltb_lt 0 (message_id f))) by lia.
    cbn [List.find]. unfold usable_route at 1. cbn [originator sender].
    rewrite (proj2 (is_peer_elem _ _) Hpeer), andb_true_r.
    assert (memcmp6 (frame_originator f) t || memcmp6 from t = true) as ->.
    { apply orb_true_iff. rewrite !memcmp6_eq. destruct Ht as [->| ->]; auto. }
    cbn [mbind outcome_bind sender]. by rewrite sendMessage_targeted.
Qed.

Lemma reply_goes_back_through_the_sender_witness :
  send_to (Node addr_self
             (insert_front (replicate STORED_MESSAGES zero_message)
                (MessageInfo addr_A addr_B 1))
             [addr_B] 0)
          (str "yo") addr_A
  = Done (Node addr_self
            (insert_front (replicate STORED_MESSAGES zero_message)
               (MessageInfo addr_A addr_B 1))
            [addr_B] 1,
          [esp_now_send (Some addr_B) (targeted_data (str "yo") addr_self addr_A 1)]).
Proof.
  refine (reply_goes_back_through_the_sender
            (Node addr_self (replicate STORED_MESSAGES zero_message) [addr_B] 0)
            addr_B (hi 1) (length (hi 1)) (Frame 1 addr_A zero_mac 1 (str "hi!"))
            _ [esp_now_send None (hi 1); receiveCallback (str "hi!") true addr_A]
            (str "yo") addr_A _ _ _ _ _ _ _).
  - reflexivity.
  - split; [vm_compute; reflexivity|]. split; [discriminate|].
    intros (m & Hm & _). vm_compute in Hm. by apply elem_of_nil in Hm.
  - discriminate.
  - vm_compute. reflexivity.
  - apply list_elem_of_here.
  - by left.
  - vm_compute. lia.
Defined.

Lemma send_all_cons st m messages st' events :
  send_all st (m :: messages) = Done (st', events) →
  ∃ rest,
    send st m
    = Done (next_id st,
            [esp_now_send None
               (broadcast_data m (self st) (uint16_t (last_message_id st + 1)))])
    ∧ send_all (next_id st) messages = Done (st', rest)
    ∧ events
      = esp_now_send None (broadcast_data m (self st) (uint16_t (last_message_id st + 1)))
        :: rest.
Proof.
  cbn [send_all]. destruct (send st m) as [[st1 ev1]| |] eqn:Hsend; [|done..].
  apply send_Done in Hsend as (-> & -> & Hlen). cbn [mbind outcome_bind].
  destruct (send_all (next_id st) messages) as [[st2 ev2]| |]; [|done..].
  cbn [mbind outcome_bind app]. intros [= <- <-]. by eexists.
Qed.

Lemma send_all_Done st messages st' events :
  send_all st messages = Done (st', events) →
  self st' = self st ∧ message_store st' = message_store st ∧ peers st' = peers st
  ∧ length events = length messages
  ∧ (messages ≠ [] →
     last_message_id st'
     = uint16_t (last_message_id st + 1 + Z.of_nat (length messages - 1)))
  ∧ ∀ i m, messages !! i = Some m →
           events !! i
           = Some (esp_now_send None
                     (broadcast_data m (self st)
                        (uint16_t (last_message_id st + 1 + Z.of_nat i)))).
Proof.
  revert st events. induction messages as [|m0 messages IH]; intros st events.
  { intros [= <- <-]. by repeat split. }
  intros (rest & _ & Hrest & ->)%send_all_cons.
  destruct (IH _ _ Hrest) as (-> & -> & -> & Hlen & Hlast & Hev).
  cbn [next_id self message_store peers last_message_id length] in *.
  split; [done|]. split; [done|]. split; [done|]. split; [by rewrite Hlen|]. split.
  - intros _. destruct messages as [|m1 messages].
    + injection Hrest as <- _. cbn [next_id last_message_id length].
      f_equal; lia.
    + rewrite Hlast by done. cbn [length]. unfold uint16_t.
      rewrite <- Z.add_assoc, Zplus_mod_idemp_l. f_equal; lia.
  - intros [|i] m; rewrite !lookup_cons.
    + intros [= ->]. do 4 f_equal; lia.
    + intros Hm. rewrite (Hev i m Hm). do 3 f_equal. unfold uint16_t.
      rewrite <- Z.add_assoc, Zplus_mod_idemp_l. f_equal; lia.
Qed.

Lemma send_all_short st messages :
  valid_mac (self st) →
  Forall (fun m => length (c_str m) ≤ 20) messages →
  ∃ st' events, send_all st messages = Done (st', events).
Proof.
  intros Hself. revert st Hself.
  induction messages as [|m0 messages IH]; intros st Hself Hshort; [by eexists _, _|].
  apply Forall_cons in Hshort as [Hm0 Hshort]. cbn [send_all].
  rewrite send_fits.
  - cbn [mbind outcome_bind].
    destruct (IH (next_id st) Hself Hshort) as (st' & events & ->).
    cbn [mbind outcome_bind]. by eexists _, _.
  - pose proof (broadcast_data_short m0 (self st) (uint16_t (last_message_id st + 1))
                  Hself ltac:(apply Z.mod_pos_bound; lia)).
    unfold MAX_MSG_LEN. lia.
Qed.

(** X9.  The message counter.  When a run of sends completes, the [i]-th of
    them (counting from 0) has gone out as a broadcast with originator
    [self] and id [(last_message_id + 1 + i) mod 65536], one line per call,
    and the counter is left at the id of the last one.  A run of messages of
    at most 20 characters always completes.  Two sends fewer than 65536
    apart carry different ids, and a send carries id 0, the value the store
    takes for an empty slot, exactly when the count wraps. *)
Theorem sends_are_numbered_in_sequence st messages :
  let sent k := uint16_t (last_message_id st + 1 + Z.of_nat k) in
  (∀ st' events,
     send_all st messages = Done (st', events) →
     length events = length messages
     ∧ (messages ≠ [] → last_message_id st' = sent (length messages - 1))
     ∧ ∀ i m, messages !! i = Some m →
              events !! i = Some (esp_now_send None (broadcast_data m (self st) (sent i))))
  ∧ (valid_mac (self st) →
     Forall (fun m => length (c_str m) ≤ 20) messages →
     ∃ st' events, send_all st messages = Done (st', events))
  ∧ (∀ i j, (Z.of_nat i < Z.of_nat j < Z.of_nat i + 65536)%Z → sent i ≠ sent j)
  ∧ (∀ i, sent i = 0%Z ↔ ∃ q, (last_message_id st + 1 + Z.of_nat i = 65536 * q)%Z).
Proof.
  intros sent. split; [|split; [|split]].
  - intros st' events Hrun.
    destruct (send_all_Done _ _ _ _ Hrun) as (_ & _ & _ & Hlen & Hlast & Hev).
    split; [exact Hlen|]. split; [exact Hlast | exact Hev].
  - apply send_all_short.
  - intros i j Hj. unfold sent, uint16_t. intros Heq.
    assert (Hd : ((last_message_id st + 1 + Z.of_nat j
                   - (last_message_id st + 1 + Z.of_nat i)) mod 65536 = 0)%Z).
    { rewrite Zminus_mod, Heq, Z.sub_diag. done. }
    apply Z.mod_divide in Hd; [|lia]. destruct Hd as [q Hq]. lia.
  - intros i. unfold sent, uint16_t. rewrite Z.mod_divide by lia. split.
    + intros [q Hq]. exists q. lia.
    + intros [q Hq]. exists q. lia.
Qed.

Lemma elem_of_insert_front store new m :
  m ∈ insert_front store new → m = new ∨ m ∈ store.
Proof.
  unfold insert_front. intros [->|Hin]%elem_of_cons; [by left|]. right.
  apply elem_of_app in Hin as [Hin|Hin].
  - by eapply subseteq_take.
  - by eapply subseteq_drop.
Qed.

(** X10.  In every state a node can reach from [begin], by whatever receipts,
    sends and scans, the store has [STORED_MESSAGES] slots, every slot holds
    an originator of six bytes in 0..255 and an id in 0..65535, no slot
    other than a never-written one names the node itself as originator, and
    the message counter is within 0..65535. *)
Theorem node_never_stores_its_own_frames me st :
  valid_mac me →
  reachable me st →
  self st = me
  ∧ length (message_store st) = STORED_MESSAGES
  ∧ Forall (slot_ok me) (message_store st)
  ∧ (0 ≤ last_message_id st < 65536)%Z.
Proof.
  intros Hme Hreach.
  destruct (reachable_well_sized _ _ _ Hreach) as [Hsize Hself].
  split; [done|]. split; [done|]. clear Hsize Hself.
  induction Hreach as [|st from data len st' events Hst [IH1 IH2] _ Hrun
                        |st msg st' events _ [IH1 IH2] Hrun
                        |st msg t st' events _ [IH1 IH2] Hrun
                        |st arg status _ [IH1 IH2]].
  - split; [|done]. apply Forall_replicate.
    split; [apply valid_zero_mac|]. split; [done|]. by left.
  - destruct (reachable_well_sized _ _ _ Hst) as [Hws Hself].
    apply receiveData_Done in Hrun; [|done].
    destruct Hrun as [(-> & _)|(f & Hf & Hother & _ & -> & _)]; [done|].
    split; [|done]. cbn [with_store message_store].
    apply Forall_forall. intros m [->|Hin]%elem_of_insert_front.
    + destruct (decode_fields _ _ _ Hf) as (_ & Ho & _ & Hid & _).
      split; [done|]. split; [done|]. right. cbn [originator]. congruence.
    + by apply (proj1 (Forall_forall _ _) IH1).
  - apply send_Done in Hrun as (-> & _).
    split; [done|]. apply Z.mod_pos_bound. lia.
  - apply send_to_Done in Hrun as (-> & _).
    split; [done|]. apply Z.mod_pos_bound. lia.
  - by destruct status.
Qed.

(** At a node that has taken in two broadcasts of [addr_A]: the two written
    slots name [addr_A], not the node, and the other eight were never
    written. *)
Lemma node_never_stores_its_own_frames_witness :
  ∃ st events,
    receive_all (begin addr_self) (relayed [1; 2]%Z) = Done (st, events)
    ∧ take 2 (message_store st)
      = [MessageInfo addr_A addr_B 2; MessageInfo addr_A addr_B 1]
    ∧ Forall (slot_ok addr_self) (message_store st).
Proof.
  eexists _, _. split; [vm_compute; reflexivity|]. split; [reflexivity|].
  refine (proj1 (proj2 (proj2 (node_never_stores_its_own_frames addr_self _ _ _)))).
  - literal_mac.
  - eapply (receive_all_reachable _ _ (begin addr_self) (relayed [1; 2]%Z));
      [apply reach_begin | by repeat constructor | vm_compute; reflexivity].
Defined.

(** ** Peer discovery *)

Lemma score_loop_sum a l sc0 :
  (0 ≤ sc0)%Z → (sc0 + 20 * Z.of_nat (length l) ≤ 32767)%Z →
  fold_left
    (fun sc m =>
       if memcmp6 a (originator m) || memcmp6 a (sender m)
       then int16_t (sc + 20) else sc) l sc0
  = (sc0 + 20 * Z.of_nat (length (List.filter (heard_through a) l)))%Z.
Proof.
  revert sc0. induction l as [|m l IH]; intros sc0 H0 Hmax; cbn [fold_left List.filter length].
  - lia.
  - cbn [length] in Hmax. unfold heard_through at 1.
    destruct (memcmp6 a (originator m) || memcmp6 a (sender m)).
    + assert (int16_t (sc0 + 20) = (sc0 + 20)%Z) as ->.
      { unfold int16_t. rewrite Z.mod_small; lia. }
      rewrite IH by lia. cbn [length]. lia.
    + rewrite IH by lia. lia.
Qed.

(** X11.  For a signal strength the SDK can report (a sint8), the score of an
    access point is 128 minus the magnitude of the strength plus 20 for each
    stored message that came from or through it; it lies between 0 and 328,
    so the 16-bit score never overflows, and it is 0 only for strength -128
    with no such message. *)
Theorem score_is_signal_plus_history store ap :
  (-128 ≤ rssi ap ≤ 127)%Z →
  let heard := length (List.filter (heard_through (bssid ap)) (take STORED_MESSAGES store)) in
  ap_score store ap = (128 - Z.abs (rssi ap) + 20 * Z.of_nat heard)%Z
  ∧ heard ≤ STORED_MESSAGES
  ∧ (0 ≤ ap_score store ap ≤ 328)%Z
  ∧ (ap_score store ap = 0%Z ↔ rssi ap = (-128)%Z ∧ heard = 0).
Proof.
  intros Hr heard.
  assert (Hheard : heard ≤ STORED_MESSAGES).
  { unfold heard. etrans; [apply List.filter_length_le|]. rewrite length_take. lia. }
  assert (Hscore : ap_score store ap = (128 - Z.abs (rssi ap) + 20 * Z.of_nat heard)%Z).
  { unfold ap_score.
    assert (int16_t (128 - Z.abs (rssi ap)) = (128 - Z.abs (rssi ap))%Z) as ->.
    { unfold int16_t. rewrite Z.mod_small; lia. }
    apply score_loop_sum; [lia|]. rewrite length_take. unfold STORED_MESSAGES. lia. }
  split; [done|]. split; [done|]. rewrite Hscore. clearbody heard.
  unfold STORED_MESSAGES in Hheard. repeat split; lia.
Qed.

Lemma score_is_signal_plus_history_witness :
  ap_score (message_store two_routes) (esp_ap addr_C (-60)) = 88%Z.
Proof.
  refine (eq_trans (proj1 (score_is_signal_plus_history (message_store two_routes)
                             (esp_ap addr_C (-60)) _)) _).
  - cbn. lia.
  - vm_compute. reflexivity.
Defined.

Lemma pick_candidate_app filled free i sc :
  Forall (fun p => (0 < score p)%Z) filled →
  pick_candidate (filled ++ free) i sc (-1) 0
  = match free with
    | [] => (-1)%Z
    | p :: _ => if (0 <? score p)%Z then pick_candidate free (i + length filled) sc (-1) 0
                else Z.of_nat (i + length filled)
    end.
Proof.
  intros Hfilled. revert i. induction Hfilled as [|q filled Hq _ IH]; intros i.
  - rewrite Nat.add_0_r. cbn [app length].
    destruct free as [|p free]; [done|]. cbn [pick_candidate].
    destruct (0 <? score p)%Z eqn:Hp; [|done]. cbn [negb]. done.
  - cbn [app pick_candidate length].
    rewrite (proj2 (Z.ltb_lt _ _) Hq). cbn [negb].
    rewrite (proj2 (Z.ltb_ge (score q) 0)) by lia.
    rewrite andb_false_r, IH. by replace (S i + length filled) with (i + S (length filled)) by lia.
Qed.


Lemma scan_fold store arg filled free :
  Forall (fun p => (0 < score p)%Z) filled →
  Forall (fun p => (score p ≤ 0)%Z) free →
  length (filled ++ free) = MAX_PEERS →
  ∃ free',
    fold_left (consider store) arg (filled ++ free)
    = filled
      ++ map (to_peer store) (take (length free) (List.filter (worth_a_slot store) arg))
      ++ free'
    ∧ Forall (fun p => (score p ≤ 0)%Z) free'
    ∧ length (fold_left (consider store) arg (filled ++ free)) = MAX_PEERS.
Proof.
  revert filled free. induction arg as [|ap arg IH]; intros filled free Hfilled Hfree Hlen.
  { exists free. by cbn [fold_left List.filter take map app]; rewrite take_nil. }
  cbn [fold_left List.filter]. unfold consider at 2 4, worth_a_slot at 1.
  destruct (has_esp_prefix ap) eqn:Hp; cbn [andb]; [|by apply IH].
  cbn zeta. rewrite take_ge by lia. rewrite pick_candidate_app by done.
  destruct free as [|p free].
  { change (0 <=? -1)%Z with false. cbn iota.
    destruct (IH filled [] Hfilled Hfree Hlen) as (free' & Heq & Hfree' & Hlen').
    exists free'. split; [|done]. rewrite Heq. cbn [length]. by rewrite !take_0. }
  apply Forall_cons in Hfree as [Hpfree Hfree].
  rewrite (proj2 (Z.ltb_ge _ _) Hpfree). cbn [Nat.add].
  rewrite (proj2 (Z.leb_le 0 _)) by lia. rewrite Nat2Z.id.
  rewrite insert_app_r_alt by lia. rewrite Nat.sub_diag.
  change (<[0:=?x]> (p :: free)) with (x :: free).
  fold (to_peer store ap).
  destruct (0 <? ap_score store ap)%Z eqn:Hs.
  - apply Z.ltb_lt in Hs.
    destruct (IH (filled ++ [to_peer store ap]) free) as (free' & Heq & Hfree' & Hlen').
    + apply Forall_app. split; [done|]. by repeat constructor.
    + done.
    + rewrite <- Hlen. rewrite !length_app. cbn [length]. lia.
    + rewrite <- app_assoc in Heq, Hlen'. cbn [app] in Heq, Hlen'.
      exists free'. split; [|done]. rewrite Heq. cbn [length take map app].
      by rewrite <- app_assoc.
  - apply Z.ltb_ge in Hs.
    destruct (IH filled (to_peer store ap :: free)) as (free' & Heq & Hfree' & Hlen').
    + done.
    + by constructor.
    + rewrite <- Hlen. rewrite !length_app. cbn [length]. lia.
    + exists free'. split; [|done]. by rewrite Heq.
Qed.

Lemma working_set_size store arg : length (scan_results store arg) = MAX_PEERS.
Proof.
  destruct (scan_fold store arg [] (replicate MAX_PEERS zero_peer))
    as (free & _ & _ & Hlen); [constructor | by apply Forall_replicate
                                | apply length_replicate | done].
Qed.

Lemma working_set_closed store arg :
  ∃ free,
    scan_results store arg
    = map (to_peer store) (take MAX_PEERS (List.filter (worth_a_slot store) arg)) ++ free
    ∧ Forall (fun p => (score p ≤ 0)%Z) free.
Proof.
  destruct (scan_fold store arg [] (replicate MAX_PEERS zero_peer))
    as (free & Heq & Hfree & _); [constructor | by apply Forall_replicate
                                  | apply length_replicate |].
  exists free. unfold scan_results. cbn [app] in Heq.
  by rewrite length_replicate in Heq.
Qed.

(** X13.  First come, first served: after the loop over the scan list the
    working set holds, in scan order, the first [MAX_PEERS] access points
    that have the prefix and a positive score, each with its address and its
    score; the remaining slots have a score that is not positive.  A later
    access point never displaces an earlier one, however strong. *)
Theorem working_set_is_first_come_first_served store arg :
  ∃ free,
    scan_results store arg
    = map (to_peer store) (take MAX_PEERS (List.filter (worth_a_slot store) arg)) ++ free
    ∧ Forall (fun p => (score p ≤ 0)%Z) free
    ∧ length (scan_results store arg) = MAX_PEERS.
Proof.
  destruct (scan_fold store arg [] (replicate MAX_PEERS zero_peer))
    as (free & Heq & Hfree & Hlen).
  - constructor.
  - by apply Forall_replicate.
  - apply length_replicate.
  - exists free. unfold scan_results. cbn [app] in Heq, Hlen.
    by rewrite length_replicate in Heq.
Qed.

Lemma purge_peers_elem peer_store l a :
  a ∈ purge_peers peer_store l ↔ a ∈ l ∧ ∃ p, p ∈ peer_store ∧ mac p = a.
Proof.
  unfold purge_peers. rewrite list_elem_of_In, filter_In, existsb_exists, <- list_elem_of_In.
  split; intros [Hin (p & Hp & Hm)]; (split; [done|]); exists p.
  - apply list_elem_of_In in Hp. by apply memcmp6_eq in Hm.
  - split; [by apply list_elem_of_In|]. by apply memcmp6_eq.
Qed.

Lemma add_peers_keeps peer_store ps a : a ∈ ps → a ∈ add_peers peer_store ps.
Proof.
  unfold add_peers. revert ps. induction peer_store as [|p peer_store IH]; intros ps Hin; [done|].
  cbn [fold_left]. apply IH.
  destruct (0 <? score p)%Z; [|done].
  destruct (esp_now_is_peer_exist ps (mac p)); [done|].
  apply elem_of_app. by left.
Qed.

Lemma add_peers_adds peer_store ps p :
  p ∈ peer_store → (0 < score p)%Z → mac p ∈ add_peers peer_store ps.
Proof.
  revert ps. induction peer_store as [|q peer_store IH]; intros ps Hin Hs.
  { by apply elem_of_nil in Hin. }
  apply elem_of_cons in Hin as [<-|Hin]; [|by apply IH].
  unfold add_peers. cbn [fold_left]. apply add_peers_keeps.
  rewrite (proj2 (Z.ltb_lt _ _) Hs).
  destruct (esp_now_is_peer_exist ps (mac p)) eqn:He.
  - by apply is_peer_elem.
  - apply elem_of_app. right. apply list_elem_of_here.
Qed.

Lemma add_peers_NoDup peer_store ps : NoDup ps → NoDup (add_peers peer_store ps).
Proof.
  unfold add_peers. revert ps. induction peer_store as [|p peer_store IH]; intros ps Hnd; [done|].
  cbn [fold_left]. apply IH.
  destruct (0 <? score p)%Z; [|done].
  destruct (esp_now_is_peer_exist ps (mac p)) eqn:He; [done|].
  apply NoDup_app. split; [done|]. split; [|apply NoDup_singleton].
  intros a Ha ->%list_elem_of_singleton.
  apply is_peer_elem in Ha. congruence.
Qed.

Lemma add_peers_noop peer_store ps :
  (∀ p, p ∈ peer_store → (0 < score p)%Z → mac p ∈ ps) → add_peers peer_store ps = ps.
Proof.
  unfold add_peers. induction peer_store as [|p peer_store IH]; intros Hall; [done|].
  cbn [fold_left]. destruct (0 <? score p)%Z eqn:Hs.
  - rewrite (proj2 (is_peer_elem ps (mac p))).
    + apply IH. intros q Hq. apply Hall. by apply list_elem_of_further.
    + apply Hall; [apply list_elem_of_here | by apply Z.ltb_lt].
  - apply IH. intros q Hq. apply Hall. by apply list_elem_of_further.
Qed.

Lemma filter_twice {A} (f : A → bool) l : List.filter f (List.filter f l) = List.filter f l.
Proof.
  induction l as [|x l IH]; [done|]. cbn [List.filter].
  destruct (f x) eqn:Hx; [|done]. cbn [List.filter]. by rewrite Hx, IH.
Qed.

Lemma NoDup_list_filter {A} (f : A → bool) l : NoDup l → NoDup (List.filter f l).
Proof.
  induction 1 as [|x l Hx _ IH]; cbn [List.filter]; [constructor|].
  destruct (f x); [|done]. constructor; [|done].
  intros Hin. apply Hx. apply list_elem_of_In in Hin. apply filter_In in Hin as [Hin _].
  by apply list_elem_of_In.
Qed.

Lemma peers_after_scan_elem store arg ps a :
  let peer_store := scan_results store arg in
  a ∈ purge_peers peer_store (add_peers peer_store ps)
  ↔ (∃ p, p ∈ peer_store ∧ (0 < score p)%Z ∧ mac p = a)
    ∨ (a ∈ ps ∧ ∃ p, p ∈ peer_store ∧ mac p = a).
Proof.
  intros peer_store. rewrite purge_peers_elem. split.
  - intros [[Hin|(p & Hp & Hs & Hm)]%add_peers_from Hkept].
    + right. by split.
    + left. by exists p.
  - intros [(p & Hp & Hs & <-)|[Hin Hkept]].
    + split; [by apply add_peers_adds|]. by exists p.
    + split; [by apply add_peers_keeps | done].
Qed.

Lemma peers_after_scan_bound store arg ps :
  let peer_store := scan_results store arg in
  NoDup ps →
  NoDup (purge_peers peer_store (add_peers peer_store ps))
  ∧ length (purge_peers peer_store (add_peers peer_store ps)) ≤ MAX_PEERS.
Proof.
  intros peer_store Hnd.
  assert (Hnd' : NoDup (purge_peers peer_store (add_peers peer_store ps))).
  { unfold purge_peers. apply NoDup_list_filter. by apply add_peers_NoDup. }
  split; [done|].
  rewrite <- (working_set_size store arg). fold peer_store. rewrite <- (length_map mac peer_store).
  apply submseteq_length, NoDup_submseteq; [done|].
  intros a (_ & p & Hp & <-)%purge_peers_elem.
  apply list_elem_of_fmap. by exists p.
Qed.

(** X14.  What a successful scan makes of the peer list, in terms of the
    access points found.  Call chosen the first [MAX_PEERS] access points of
    the scan that have the prefix and a positive score.  Every chosen access
    point is a peer afterwards; every peer afterwards is a chosen access
    point or was a peer before; and when the scan has at least [MAX_PEERS]
    such access points, the peers afterwards are exactly the chosen ones.
    A peer list without repetition stays so and ends with at most
    [MAX_PEERS] entries.  Nothing else of the node changes. *)
Theorem scan_decides_the_peers st arg :
  let chosen := take MAX_PEERS (List.filter (worth_a_slot (message_store st)) arg) in
  let st' := scanDoneCallback st arg OK in
  (∀ ap, ap ∈ chosen → bssid ap ∈ peers st')
  ∧ (∀ a, a ∈ peers st' → a ∈ peers st ∨ ∃ ap, ap ∈ chosen ∧ bssid ap = a)
  ∧ (MAX_PEERS ≤ length (List.filter (worth_a_slot (message_store st)) arg) →
     ∀ a, a ∈ peers st' ↔ ∃ ap, ap ∈ chosen ∧ bssid ap = a)
  ∧ (NoDup (peers st) → NoDup (peers st') ∧ length (peers st') ≤ MAX_PEERS)
  ∧ self st' = self st ∧ message_store st' = message_store st
  ∧ last_message_id st' = last_message_id st.
Proof.
  intros chosen st'.
  destruct (working_set_closed (message_store st) arg)
    as (free & Heq & Hfree).
  fold chosen in Heq.
  assert (Hworth : ∀ ap, ap ∈ chosen → (0 < ap_score (message_store st) ap)%Z).
  { intros ap Hin. apply (subseteq_take MAX_PEERS) in Hin.
    apply list_elem_of_In, filter_In in Hin as [_ Hw].
    unfold worth_a_slot in Hw. apply andb_true_iff in Hw as [_ Hw]. by apply Z.ltb_lt. }
  assert (Hslot : ∀ p, p ∈ scan_results (message_store st) arg → (0 < score p)%Z →
                       ∃ ap, ap ∈ chosen ∧ p = to_peer (message_store st) ap).
  { intros p Hin Hs. rewrite Heq in Hin. apply elem_of_app in Hin as [Hin|Hin].
    - apply list_elem_of_fmap in Hin as (ap & -> & Hap). by exists ap.
    - apply (proj1 (Forall_forall _ _) Hfree) in Hin. lia. }
  assert (Hin : ∀ ap, ap ∈ chosen →
                      to_peer (message_store st) ap ∈ scan_results (message_store st) arg).
  { intros ap Hap. rewrite Heq. apply elem_of_app. left.
    apply list_elem_of_fmap. by exists ap. }
  pose proof (peers_after_scan_elem (message_store st) arg (peers st)) as Helem.
  cbn zeta in Helem.
  split; [|split; [|split; [|split]]].
  - intros ap Hap. unfold st'. cbn [scanDoneCallback peers]. apply Helem. left.
    exists (to_peer (message_store st) ap). split; [by apply Hin|].
    split; [by apply Hworth | done].
  - intros a. unfold st'. cbn [scanDoneCallback peers].
    intros [(p & Hp & Hs & <-)|[Hold _]]%Helem; [|by left].
    right. destruct (Hslot p Hp Hs) as (ap & Hap & ->). by exists ap.
  - intros Hmany a.
    assert (free = []) as ->.
    { pose proof (working_set_size (message_store st) arg) as Hlen.
      rewrite Heq, length_app, length_map in Hlen. unfold chosen in Hlen.
      rewrite length_take in Hlen. apply nil_length_inv. lia. }
    rewrite app_nil_r in Heq.
    unfold st'. cbn [scanDoneCallback peers]. rewrite Helem. split.
    + intros [(p & Hp & Hs & <-)|[_ (p & Hp & <-)]];
        rewrite Heq in Hp; apply list_elem_of_fmap in Hp as (ap & -> & Hap); by exists ap.
    + intros (ap & Hap & <-). left. exists (to_peer (message_store st) ap).
      split; [by apply Hin|]. split; [by apply Hworth | done].
  - intros Hnd. unfold st'. cbn [scanDoneCallback peers].
    by apply peers_after_scan_bound.
  - done.
Qed.

(** X15.  A scan callback repeated with the same scan list changes nothing
    more: the first one already added every chosen access point and removed
    every peer it does not keep. *)
Theorem scan_twice_is_scan_once st arg status :
  scanDoneCallback (scanDoneCallback st arg status) arg status
  = scanDoneCallback st arg status.
Proof.
  destruct status; [|done..]. cbn [scanDoneCallback self message_store peers last_message_id].
  f_equal. set (peer_store := scan_results (message_store st) arg).
  rewrite add_peers_noop.
  - unfold purge_peers. apply filter_twice.
  - intros p Hp Hs. apply purge_peers_elem. split; [by apply add_peers_adds|]. by exists p.
Qed.

Lemma reachable_peers me st :
  reachable me st → NoDup (peers st) ∧ length (peers st) ≤ MAX_PEERS.
Proof.
  induction 1 as [|st from data len st' events Hst IH _ Hrun
                  |st msg st' events _ IH Hrun|st msg t st' events _ IH Hrun
                  |st arg status _ [IH1 IH2]].
  - split; [constructor|]. cbn. unfold MAX_PEERS. lia.
  - destruct (reachable_well_sized _ _ _ Hst) as [Hws _].
    apply receiveData_Done in Hrun; [|done].
    by destruct Hrun as [(-> & _)|(f & _ & _ & _ & -> & _)].
  - by apply send_Done in Hrun as (-> & _).
  - by apply send_to_Done in Hrun as (-> & _).
  - destruct status; [|done..]. cbn [scanDoneCallback peers].
    by apply peers_after_scan_bound.
Qed.

(** X16.  In every state a node can reach from [begin] the peer list has no
    repetition and at most [MAX_PEERS] entries; and a receipt, a send and a
    targeted send leave the peer list of such a state as it is, so that only
    a scan changes it. *)
Theorem peer_list_stays_small me st :
  reachable me st →
  NoDup (peers st)
  ∧ length (peers st) ≤ MAX_PEERS
  ∧ (∀ from data len st' events,
       receiveData st from data len = Done (st', events) → peers st' = peers st)
  ∧ (∀ message st' events,
       send st message = Done (st', events) → peers st' = peers st)
  ∧ (∀ message t st' events,
       send_to st message t = Done (st', events) → peers st' = peers st).
Proof.
  intros Hreach.
  destruct (reachable_peers _ _ Hreach) as [Hnd Hlen].
  destruct (reachable_well_sized _ _ _ Hreach) as [Hws _].
  split; [exact Hnd|]. split; [exact Hlen|]. split; [|split].
  - intros from data len st' events Hrun.
    apply receiveData_Done in Hrun; [|done].
    by destruct Hrun as [(-> & _)|(f & _ & _ & _ & -> & _)].
  - intros message st' events Hrun. by apply send_Done in Hrun as (-> & _).
  - intros message t st' events Hrun. by apply send_to_Done in Hrun as (-> & _).
Qed.

(** After a scan that found eleven access points the node has ten peers, and
    a receipt leaves them as they are. *)
Lemma peer_list_stays_small_witness :
  let st := scanDoneCallback (begin addr_self) (weak_aps ++ [esp_ap addr_C (-30)]) OK in
  length (peers st) = MAX_PEERS
  ∧ ∃ st' events,
      receiveData st addr_B (hi 1) (length (hi 1)) = Done (st', events)
      ∧ peers st' = peers st.
Proof.
  intros st. split; [vm_compute; reflexivity|].
  eexists _, _. split; [vm_compute; reflexivity|].
  refine (proj1 (proj2 (proj2 (peer_list_stays_small addr_self st _)))
            addr_B (hi 1) (length (hi 1)) _ _ _).
  - apply reach_scan, reach_begin.
  - vm_compute. reflexivity.
Defined.

(** ** What the parser takes and what it reads *)

(** X17.  The token count is the only check the parser makes: a receipt
    that passes the length check and whose text fits the receive buffer
    decodes exactly when the text has fifteen tokens, and the frame is then
    read off the tokens by [toInt] and truncation, whatever they contain
    (the type need not be 1 or 2, a field need not be a number). *)
Theorem fifteen_tokens_are_all_it_takes data len :
  let text := received_message data len in
  let tokens := strtok text in
  ((∃ f, decode data len = Done (Some f))
   ↔ len ≤ MAX_MSG_LEN ∧ length text < MAX_MSG_LEN ∧ length tokens = 15)
  ∧ (len ≤ MAX_MSG_LEN → length text < MAX_MSG_LEN →
     decode data len = Done (frame_of_tokens tokens)).
Proof.
  intros text tokens. split.
  - split.
    + intros [f Hf]. pose proof (decode_Some _ _ _ Hf) as (Hlen & Hfits & _).
      apply decode_count in Hf as [_ Hcount]. done.
    + intros (Hlen & Hfits & Hcount).
      rewrite decode_tokens, decide_False, decide_True by (done || lia).
      fold text tokens.
      destruct tokens as [|? ts]; [done|].
      do 14 (destruct ts as [|? ts]; [done|]).
      destruct ts; [by eexists | done].
  - intros Hlen Hfits.
    by rewrite decode_tokens, decide_False, decide_True by (done || lia).
Qed.

Lemma dispatch_other_type st f :
  message_type f ≠ 1%Z → message_type f ≠ 2%Z →
  dispatch st f
  = Done [receiveCallback (message f) (negb (memcmp6 (target f) (self st)))
            (frame_originator f)].
Proof.
  intros H1 H2. unfold dispatch. destruct (memcmp6 _ _); [done|].
  rewrite (proj2 (Z.eqb_neq _ _) H1), (proj2 (Z.eqb_neq _ _) H2). done.
Qed.

(** X18.  An accepted frame whose type is neither 1 nor 2 is recorded in the
    store and handed to the callback, and nothing is sent: it is never
    forwarded. *)
Theorem other_type_delivered_not_forwarded st from data len f :
  well_sized st →
  accepted st data len f →
  message_type f ≠ 1%Z → message_type f ≠ 2%Z →
  ∃ st',
    receiveData st from data len
    = Done (st', [receiveCallback (message f) (negb (memcmp6 (target f) (self st)))
                    (frame_originator f)])
    ∧ message_store st' !! 0
      = Some (MessageInfo (frame_originator f) from (message_id f)).
Proof.
  intros Hws (Hf & Hother & Hnew) H1 H2.
  eexists. split.
  { rewrite (receive_fresh_frame _ _ _ _ _ Hws Hf Hother Hnew). cbn zeta.
    rewrite dispatch_other_type by done. cbn [mbind outcome_bind with_store self].
    reflexivity. }
  reflexivity.
Qed.

Lemma other_type_delivered_not_forwarded_witness :
  ∃ st',
    receiveData (begin addr_self) addr_B odd_type (length odd_type)
    = Done (st', [receiveCallback (str "hi!") true addr_A]).
Proof.
  destruct (other_type_delivered_not_forwarded (begin addr_self) addr_B odd_type
              (length odd_type) (Frame 7 addr_A addr_C 1 (str "hi!")))
    as (st' & Hrun & _).
  - reflexivity.
  - split; [vm_compute; reflexivity|]. split; [discriminate|].
    intros (m & Hm & _). vm_compute in Hm. by apply elem_of_nil in Hm.
  - discriminate.
  - discriminate.
  - exists st'. exact Hrun.
Defined.

Lemma take_c_str n s : take n (c_str s) = c_str (take n s).
Proof.
  revert n. induction s as [|c s IH]; intros [|n]; try done.
  cbn [take c_str]. destruct (Ascii.eqb c NUL); [done|]. cbn [take]. by rewrite IH.
Qed.

(** X19.  A receipt reads the first [len] bytes of the data and, of these,
    the ones before the first NUL; what lies behind plays no part. *)
Theorem receipt_reads_len_bytes_up_to_nul st from data len :
  receiveData st from data len = receiveData st from (c_str (take len data)) len.
Proof.
  assert (Hsame : decode data len = decode (c_str (take len data)) len).
  { unfold decode, received_message.
    rewrite (c_str_id (c_str (take len data))) by apply c_str_no_nul.
    rewrite <- take_c_str. by rewrite take_take, Nat.min_id. }
  unfold receiveData. by rewrite Hsame.
Qed.

(** ** Forwarding a targeted frame *)

Lemma insert_front_second store new m0 :
  length store = STORED_MESSAGES →
  store !! 0 = Some m0 → (0 < id m0)%Z →
  ∃ rest, insert_front store new = new :: m0 :: rest.
Proof.
  intros Hlen H0 Hid. destruct store as [|x store]; [done|]. injection H0 as ->.
  unfold insert_front. cbn [scanned]. rewrite (proj2 (Z.ltb_lt _ _) Hid). cbn [length].
  pose proof (scanned_length store) as Hn. cbn [length] in Hlen.
  case_decide as Hfull.
  - replace (S (length (scanned store)) - 1) with (S (length (scanned store) - 1))
      by (unfold STORED_MESSAGES in *; lia).
    cbn [take app]. by eexists.
  - cbn [take app]. by eexists.
Qed.

(** X20.  A node that most recently recorded a message from or through the
    target [t] of an incoming targeted frame, received from a neighbour [p]
    that is still a peer, forwards the frame to [p] alone, with originator,
    target, id and payload as received, and hands it to the callback with
    flag [true].  The line written for it must be shorter than
    [MAX_MSG_LEN].  The frame's own entry is written before the route is
    looked up, so its id must not be 0 (an entry with id 0 ends the scan)
    and the frame must not itself look like a route to [t]. *)
Theorem targeted_frame_forwarded_to_last_contact st from data len f m0 :
  well_sized st →
  accepted st data len f →
  message_type f = 2%Z →
  target f ≠ self st →
  message_id f ≠ 0%Z →
  frame_originator f ≠ target f → from ≠ target f →
  message_store st !! 0 = Some m0 → (0 < id m0)%Z →
  originator m0 = target f ∨ sender m0 = target f →
  sender m0 ∈ peers st →
  length (targeted_data (message f) (frame_originator f) (target f) (message_id f))
  < MAX_MSG_LEN →
  ∃ st',
    receiveData st from data len
    = Done (st', [esp_now_send (Some (sender m0))
                    (targeted_data (message f) (frame_originator f) (target f)
                       (message_id f));
                  receiveCallback (message f) true (frame_originator f)]).
Proof.
  intros Hws (Hf & Hother & Hnew) H2 Ht Hnz Hot Hft H0 Hid Hroute Hpeer Hfits.
  pose proof (decode_id_range _ _ _ Hf) as Hrange.
  destruct (insert_front_second (message_store st)
              (MessageInfo (frame_originator f) from (message_id f)) m0 Hws H0 Hid)
    as [rest Hins].
  eexists. rewrite (receive_fresh_frame _ _ _ _ _ Hws Hf Hother Hnew). cbn zeta.
  unfold dispatch. cbn [with_store self].
  rewrite (proj2 (memcmp6_ne _ _) Ht), H2.
  change (2 =? 1)%Z with false. change (2 =? 2)%Z with true. cbn iota.
  rewrite sendTargeted_closed by by apply length_insert_front.
  rewrite decide_True by done.
  cbn [with_store message_store peers]. rewrite Hins.
  cbn [scanned id]. rewrite (proj2 (Z.ltb_lt 0 (message_id f))) by lia.
  rewrite (proj2 (Z.ltb_lt _ _) Hid). cbn [List.find].
  assert (usable_route (peers st) (target f)
            (MessageInfo (frame_originator f) from (message_id f)) = false) as ->.
  { unfold usable_route. cbn [originator sender].
    by rewrite (proj2 (memcmp6_ne _ _) Hot), (proj2 (memcmp6_ne _ _) Hft). }
  rewrite (proj2 (usable_route_iff _ _ _)) by done.
  cbn [mbind outcome_bind app]. by rewrite sendMessage_targeted.
Qed.

Lemma targeted_frame_forwarded_to_last_contact_witness :
  ∃ st',
    receiveData heard_through_C addr_D (targeted_data (str "hi!") addr_D addr_A 7)
      (length (targeted_data (str "hi!") addr_D addr_A 7))
    = Done (st', [esp_now_send (Some addr_C)
                    (targeted_data (str "hi!") addr_D addr_A 7);
                  receiveCallback (str "hi!") true addr_D]).
Proof.
  refine (targeted_frame_forwarded_to_last_contact heard_through_C addr_D
            (targeted_data (str "hi!") addr_D addr_A 7)
            (length (targeted_data (str "hi!") addr_D addr_A 7))
            (Frame 2 addr_D addr_A 7 (str "hi!")) (MessageInfo addr_A addr_C 2)
            _ _ _ _ _ _ _ _ _ _ _ _).
  - reflexivity.
  - split; [vm_compute; reflexivity|]. split; [discriminate|].
    intros (m & Hm & Ho & Hi). vm_compute in Hm.
    repeat (apply elem_of_cons in Hm as [->|Hm]; [discriminate Ho|]).
    by apply elem_of_nil in Hm.
  - reflexivity.
  - discriminate.
  - discriminate.
  - discriminate.
  - discriminate.
  - vm_compute. reflexivity.
  - cbn. lia.
  - by left.
  - vm_compute. apply list_elem_of_here.
  - vm_compute. lia.
Defined.
